(** * Periodicity scoring of ribosome-profiling coverage

    A shallow embedding of the scoring core of the repository:
    - [RiboCop/common.py]: [pvalue], [coherence], [integral_p3],
      [phase_vector_pdf];
    - [ribotricer/detect_orfs.py]: the translating / nontranslating decision of
      [export_orf_coverages];

    and of the code that feeds it:
    - [RiboCop/common.py]: [merge_intervals], [is_read_uniq_mapping];
    - [RiboCop/orf.py]: the constructor of [ORF], [start_codon],
      [from_string];
    - [ribotricer/detect_orfs.py]: [merge_read_lengths],
      [parse_ribotricer_index], [orf_coverage].

    Two numeric models are used.  The coherence path ([coherence], [pvalue])
    is modelled over the real numbers: it goes through trigonometric
    functions, an FFT-based spectral estimate and a chi-square survival
    function, whose binary64 roundings are the numeric library's business and
    whose mathematical contract is what the code relies on.  A Python float is
    then a real number or NaN ([pyfloat]).  The phase-vector density
    ([integral_p3], [phase_vector_pdf]) uses only IEEE operations (square root,
    product, quotient, comparison) besides its library calls, and is modelled
    over binary64 floats themselves, so that NaN and infinity behave as they do
    in numpy.

    Exact frame scores can tie where the binary64 scores of a run differ in
    the last place.  What depends on the frame selected is therefore stated
    over the loop of [coherence] around frame scores that are left open
    ([coherence_with]), of which the exact scores are one instance; what is
    stated of the exact scores is stated frame by frame.  Likewise the sign
    of [integral_p3] inside its support is stated in exact arithmetic, for
    quadrature rules of positive weights. *)

From Stdlib Require Import Floats.
From Stdlib Require Import Reals Lra Lia ZArith List Bool Psatz.
From Stdlib Require Import ClassicalEpsilon.
From Stdlib Require Import Sorting.Sorted Permutation.
From Stdlib Require Strings.String Strings.Ascii Numbers.DecimalString.
Import ListNotations.
Import Stdlib.Strings.String.StringSyntax Stdlib.Strings.Ascii.AsciiSyntax.

Close Scope float_scope.
Open Scope R_scope.
Delimit Scope string_scope with string.
Delimit Scope char_scope with char.
Bind Scope string_scope with String.string.

(** ** Python exceptions and floats *)

Inductive exn : Type :=
| ZeroDivisionError
| IndexError
| UnboundLocalError.

(** A computation that returns or raises. *)
Definition raising (A : Type) : Type := (exn + A)%type.

Definition ret {A : Type} (a : A) : raising A := inr a.
Definition raise {A : Type} (e : exn) : raising A := inl e.
Definition bind {A B : Type} (m : raising A) (k : A -> raising B) : raising B :=
  match m with
  | inl e => inl e
  | inr a => k a
  end.

Notation "x <- m ;; k" := (bind m (fun x => k))
  (at level 61, m at next level, right associativity).

(** A float of the real-number model: a real, or NaN. *)
Definition pyfloat : Type := option R.
Definition NaN : pyfloat := None.
Definition Fin (r : R) : pyfloat := Some r.

(** [a > b] on floats: false as soon as one side is NaN. *)
Definition float_gt (a : pyfloat) (b : R) : bool :=
  match a with
  | Some r => if Rgt_dec r b then true else false
  | None => false
  end.

(** ** [scipy.stats.ncx2.sf]: the non-central chi-square survival function

    Third-party code, modelled by its mathematical definition for an even
    number of degrees of freedom [df = 2 m] (the code only ever passes
    [df = 2]): a Poisson([nc / 2]) mixture of the survival functions of
    central chi-square laws with [2 (m + j)] degrees of freedom, which are
    Erlang tails [exp (- y) * sum_{i < m + j} y ^ i / i!] at [y = x / 2]. *)

Fixpoint exp_partial (k : nat) (y : R) : R :=
  match k with
  | O => 0
  | S k' => exp_partial k' y + y ^ k' / INR (fact k')
  end.

Definition erlang_sf (k : nat) (y : R) : R := exp (- y) * exp_partial k y.

Definition poisson_pmf (mu : R) (j : nat) : R :=
  exp (- mu) * (mu ^ j / INR (fact j)).

Definition ncx2_term (x : R) (half_df : nat) (nc : R) (j : nat) : R :=
  poisson_pmf (nc / 2) j * erlang_sf (half_df + j) (x / 2).

(** The sum of a series (meaningful when the series converges). *)
Definition series_sum (u : nat -> R) : R :=
  epsilon (inhabits 0) (fun l => infinite_sum u l).

(** NaN on invalid parameters ([df <= 0] or [nc < 0]), 1 left of the
    support. *)
Definition ncx2_sf (x : R) (df : nat) (nc : R) : pyfloat :=
  if (df =? 0)%nat then NaN
  else if Rlt_dec nc 0 then NaN
  else if Rlt_dec x 0 then Fin 1
  else Fin (series_sum (ncx2_term x (Nat.div2 df) nc)).

(** ** [pvalue] (common.py, lines 89-106) *)

(** [2.0 / (N - 1)] with a Python int [N]: raises when [N = 1]. *)
Definition pvalue (x : pyfloat) (N : Z) : raising pyfloat :=
  let df := 2%nat in
  nc <- (if (N - 1 =? 0)%Z then raise ZeroDivisionError
         else ret (2 / IZR (N - 1))) ;;
  let x := option_map (fun x => 2 * IZR (N ^ 2) * x / IZR (N - 1)) x in
  ret (match x with
       | Some x => ncx2_sf x df nc
       | None => NaN
       end).

(** ** [scipy.signal.coherence] with [window=[1,1,1], nperseg=3, noverlap=0]

    Third-party code, modelled by its definition (Welch's method): the input
    is cut into consecutive segments of 3 samples, each segment has its mean
    removed (the default [detrend='constant']), is transformed by a real FFT
    of size 3 (bins 0 and 1, at frequencies 0 and 1/3), and spectra are
    averaged over the segments with the density scaling [1 / (fs * sum w^2)]
    = 1/3, doubled on the one-sided bins other than DC.
    [Cxy = |Pxy|^2 / Pxx / Pyy]. *)

Definition cplx : Type := (R * R)%type.
Definition cconj (z : cplx) : cplx := (fst z, - snd z).
Definition cmul (z w : cplx) : cplx :=
  (fst z * fst w - snd z * snd w, fst z * snd w + snd z * fst w).
Definition cadd (z w : cplx) : cplx := (fst z + fst w, snd z + snd w).
Definition cscale (a : R) (z : cplx) : cplx := (a * fst z, a * snd z).
Definition cabs (z : cplx) : R := sqrt (fst z ^ 2 + snd z ^ 2).

Fixpoint segments3 (x : list R) : list (R * R * R) :=
  match x with
  | a :: b :: c :: rest => (a, b, c) :: segments3 rest
  | _ => []
  end.

Definition detrend_constant (s : R * R * R) : R * R * R :=
  let '(a, b, c) := s in
  let m := (a + b + c) / 3 in
  (a - m, b - m, c - m).

(** Bin [k] of the 3-point DFT, [sum_j s_j exp (- 2 i pi j k / 3)]. *)
Definition rfft3 (s : R * R * R) (bin : nat) : cplx :=
  let '(a, b, c) := s in
  match bin with
  | O => (a + b + c, 0)
  | _ => (a + b * cos (2 * PI / 3) + c * cos (4 * PI / 3),
          - (b * sin (2 * PI / 3) + c * sin (4 * PI / 3)))
  end.

Definition spectrum (x : list R) (bin : nat) : list cplx :=
  map (fun s => rfft3 (detrend_constant s) bin) (segments3 x).

Definition csum (l : list cplx) : cplx := fold_right cadd (0, 0) l.

Definition onesided_scale (bin : nat) : R :=
  match bin with
  | O => 1 / 3
  | _ => 2 * (1 / 3)
  end.

(** Cross spectral density at one bin: the mean over the segments of
    [conj X * Y], scaled. *)
Definition csd (x y : list R) (bin : nat) : cplx :=
  let X := spectrum x bin in
  let Y := spectrum y bin in
  let prods := map (fun p => cmul (cconj (fst p)) (snd p)) (combine X Y) in
  cscale (onesided_scale bin) (cscale (/ INR (length prods)) (csum prods)).

Definition welch (x : list R) (bin : nat) : R := fst (csd x x bin).

(** [0 / 0] is NaN; by the Cauchy-Schwarz inequality [Pxy] vanishes with
    [Pxx] or [Pyy], so no infinity arises. *)
Definition Cxy_bin (x y : list R) (bin : nat) : pyfloat :=
  let Pxx := welch x bin in
  let Pyy := welch y bin in
  if Req_dec_T Pxx 0 then NaN
  else if Req_dec_T Pyy 0 then NaN
  else Fin (cabs (csd x y bin) ^ 2 / Pxx / Pyy).

(** The energy [sum |X_k|^2] of a list of Fourier coefficients. *)
Definition energy (Xs : list cplx) : R :=
  fold_right (fun X acc => fst X ^ 2 + snd X ^ 2 + acc) 0 Xs.

(** The pair [(f, Cxy)]: frequencies [rfftfreq(3)] and the estimate at each. *)
Definition signal_coherence (x y : list R) : list R * list pyfloat :=
  ([0; 1 / 3], map (Cxy_bin x y) [0%nat; 1%nat]).

(** [np.isclose(a, b)] with its default tolerances. *)
Definition isclose (a b : R) : bool :=
  if Rle_dec (Rabs (a - b)) (1 / 100000000 + 1 / 100000 * Rabs b)
  then true else false.

(** [np.argwhere(mask)[0]]: the first index where the mask holds. *)
Fixpoint argwhere_first (mask : list bool) : raising nat :=
  match mask with
  | [] => raise IndexError
  | true :: _ => ret 0%nat
  | false :: rest => i <- argwhere_first rest ;; ret (S i)
  end.

Definition getitem {A : Type} (l : list A) (i : nat) : raising A :=
  match nth_error l i with
  | Some a => ret a
  | None => raise IndexError
  end.

(** ** [coherence] (common.py, lines 109-174) *)

(** The [while i + 2 < len(values)] loop, lines 133-149: walks the values
    three at a time, skips all-zero codons and appends the others divided by
    the modulus of their period-3 Fourier component.  Over the reals the
    modulus of a codon [(k, k, k)] is 0 and line 144 sets it to 1; in
    binary64 the cosines do not cancel exactly, the modulus is tiny but not
    0 and the code divides by it (detrending removes such a codon from the
    spectrum either way). *)
Fixpoint normalize_codons (values : list Z) : list R :=
  match values with
  | v0 :: v1 :: v2 :: rest =>
      if ((v0 =? v1) && (v1 =? v2) && (v2 =? 0))%Z then normalize_codons rest
      else
        let real := IZR v0 + IZR v1 * cos (2 * PI / 3)
                    + IZR v2 * cos (4 * PI / 3) in
        let image := IZR v1 * sin (2 * PI / 3) + IZR v2 * sin (4 * PI / 3) in
        let norm := sqrt (real ^ 2 + image ^ 2) in
        let norm := if Req_dec_T norm 0 then 1 else norm in
        [IZR v0 / norm; IZR v1 / norm; IZR v2 / norm] ++ normalize_codons rest
  | _ => []
  end.

(** [[1, 0, 0] * n]. *)
Definition uniform_signal (n : nat) : list R := concat (repeat [1; 0; 0] n).

(** The body of the [try] block, lines 163-164. *)
Definition try_periodicity (f : list R) (Cxy : list pyfloat) (length : nat)
  : raising (pyfloat * pyfloat) :=
  idx <- argwhere_first (map (fun fi => isclose fi (1 / 3)) f) ;;
  periodicity_score <- getitem Cxy idx ;;
  periodicity_pval <- pvalue periodicity_score (Z.of_nat (length / 3)) ;;
  ret (periodicity_score, periodicity_pval).

(** The normalized signal of one frame and its truncated length,
    lines 132-151. *)
Definition frame_signal (original_values : list Z) (frame : nat) : list R :=
  normalize_codons (skipn frame original_values).

Definition truncated_length (original_values : list Z) (frame : nat) : nat :=
  (length (frame_signal original_values frame) / 3 * 3)%nat.

(** Lines 154-164 for one frame: the outcome of the [try] block. *)
Definition frame_try (original_values : list Z) (frame : nat)
  : raising (pyfloat * pyfloat) :=
  let length := truncated_length original_values frame in
  let normalized_values := firstn length (frame_signal original_values frame) in
  let uniform := uniform_signal (List.length normalized_values / 3) in
  let '(f, Cxy) := signal_coherence normalized_values uniform in
  try_periodicity f Cxy length.

(** Lines 162-167: the [try] block under its catch-all [except]. *)
Definition frame_periodicity (original_values : list Z) (frame : nat)
  : pyfloat * pyfloat :=
  match frame_try original_values frame with
  | inr sp => sp
  | inl _ => (Fin 0, Fin 1)
  end.

(** The state [(coh, pval, valid)] of the loop over the frames. *)
Definition best : Type := (R * pyfloat * Z)%type.

Definition coh_of (b : best) : R := fst (fst b).
Definition pval_of (b : best) : pyfloat := snd (fst b).
Definition valid_of (b : best) : Z := snd b.

(** Lines 168-173: keep the frame when its score is strictly greater, and
    give [valid] a value the first time through. *)
Definition select_best (st : best) (periodicity_score periodicity_pval : pyfloat)
  (length : nat) : best :=
  let '(coh, pval, valid) := st in
  let '(coh, pval, valid) :=
    if float_gt periodicity_score coh
    then (match periodicity_score with Some s => s | None => coh end,
          periodicity_pval, Z.of_nat length)
    else (coh, pval, valid) in
  let valid := if (valid =? -1)%Z then Z.of_nat length else valid in
  (coh, pval, valid).

(** The [for frame in [0, 1, 2]] loop.  The [return] of line 153 leaves the
    function, whatever the state.  The frame scores are the exact ones: where
    two frames tie over the reals, the binary64 scores of the code may differ
    in the last place and line 168 then goes either way; [coherence_with]
    below leaves the scores open for that reason. *)
Fixpoint coherence_loop (original_values : list Z) (frames : list nat)
  (st : best) : best :=
  match frames with
  | [] => st
  | frame :: frames' =>
      let length := truncated_length original_values frame in
      if (length =? 0)%nat then (0, Fin 1, 0%Z)
      else
        let '(periodicity_score, periodicity_pval) :=
          frame_periodicity original_values frame in
        coherence_loop original_values frames'
          (select_best st periodicity_score periodicity_pval length)
  end.

Definition coherence (original_values : list Z) : best :=
  coherence_loop original_values [0; 1; 2]%nat (0, Fin 1, (-1)%Z).

(** The number of codons a walk over [values] retains: the complete triplets
    that are not all zero. *)
Fixpoint retained_codons (values : list Z) : nat :=
  match values with
  | v0 :: v1 :: v2 :: rest =>
      if ((v0 =? v1) && (v1 =? v2) && (v2 =? 0))%Z then retained_codons rest
      else S (retained_codons rest)
  | _ => 0
  end.

(** The loop as the specification words it: a frame whose signal is empty
    counts as [(0.0, 1.0, 0)] for that frame only, and the remaining frames
    are still evaluated. *)
Fixpoint coherence_loop_frame_only (original_values : list Z)
  (frames : list nat) (st : best) : best :=
  match frames with
  | [] => st
  | frame :: frames' =>
      let length := truncated_length original_values frame in
      let '(periodicity_score, periodicity_pval) :=
        if (length =? 0)%nat then (Fin 0, Fin 1)
        else frame_periodicity original_values frame in
      coherence_loop_frame_only original_values frames'
        (select_best st periodicity_score periodicity_pval length)
  end.

Definition coherence_frame_only (original_values : list Z) : best :=
  coherence_loop_frame_only original_values [0; 1; 2]%nat (0, Fin 1, (-1)%Z).

(** The loop reaches [frame] (no earlier frame returned) and hands [pvalue]
    the sample size [N] there. *)
Definition calls_pvalue_with (original_values : list Z) (frame : nat) (N : Z)
  : Prop :=
  In frame [0; 1; 2]%nat
  /\ (forall g, (g <= frame)%nat -> truncated_length original_values g <> 0%nat)
  /\ Z.of_nat (truncated_length original_values frame / 3) = N.

(** ** The loop of [coherence] around frame scores left open

    The scores that line 168 compares are binary64 values that come out of
    numpy and scipy.  [periodicity original_values frame] stands for the
    values of [periodicity_score] and [periodicity_pval] after lines 154-167
    as a floating-point run computes them (a finite value, read as the real
    number it denotes, or NaN); the rest of the loop, lines 131-153 and
    168-174, is as above.  The exact scores [frame_periodicity] are one
    instance. *)

Section FrameScores.

Variable periodicity : list Z -> nat -> pyfloat * pyfloat.

Fixpoint coherence_loop_with (original_values : list Z) (frames : list nat)
  (st : best) : best :=
  match frames with
  | [] => st
  | frame :: frames' =>
      let length := truncated_length original_values frame in
      if (length =? 0)%nat then (0, Fin 1, 0%Z)
      else
        let '(periodicity_score, periodicity_pval) :=
          periodicity original_values frame in
        coherence_loop_with original_values frames'
          (select_best st periodicity_score periodicity_pval length)
  end.

Definition coherence_with (original_values : list Z) : best :=
  coherence_loop_with original_values [0; 1; 2]%nat (0, Fin 1, (-1)%Z).


(** A state of the loop once frame 0 is past: either no frame has scored
    above 0.0 (score 0.0, p-value 1.0, and [valid] that of frame 0, or 0 from
    line 153), or the state is what one frame gave. *)
Definition from_a_frame (original_values : list Z) (st : best) : Prop :=
  (coh_of st = 0 /\ pval_of st = Fin 1
   /\ (valid_of st = 0%Z
       \/ valid_of st = Z.of_nat (truncated_length original_values 0)))
  \/ (0 < coh_of st
      /\ exists frame,
          (frame < 3)%nat
          /\ periodicity original_values frame = (Fin (coh_of st), pval_of st)
          /\ valid_of st = Z.of_nat (truncated_length original_values frame)).

End FrameScores.

(** ** Coverage arrays of the worked examples *)

Definition cov_321 : list Z := [3; 0; 0; 2; 0; 0; 1; 0; 0]%Z.

Definition cov_100_010 : list Z := [1; 0; 0; 0; 1; 0]%Z.

Definition cov_100_100 : list Z := [1; 0; 0; 1; 0; 0]%Z.

(** [z] is the truncated signal length of one of the three frames. *)
Definition frame_length_of (v : list Z) (z : Z) : Prop :=
  exists frame, (frame < 3)%nat /\ z = Z.of_nat (truncated_length v frame).

(** Modelled from the spec: [ribotricer.statistics.coherence], which
    detect_orfs.py imports (line 37) and unpacks at line 257
    ([coh, valid_codons = coherence(cov)]), is not among the sources.  The spec
    (4.4, step 1) has the scorer compute [(coh, valid_codons)] via 4.1-4.2,
    the p-value being computed but not used: the score and the count of
    [coherence] of common.py. *)
Definition coherence_score_valid (cov : list Z) : R * Z :=
  let '(coh, _, valid) := coherence cov in (coh, valid).



(** ** The decision of [export_orf_coverages] (detect_orfs.py, lines 254-276) *)

Inductive status : Type :=
| translating
| nontranslating.

Record thresholds : Type := mkThresholds {
  phase_score_cutoff : R;
  min_valid_codons : R;
  min_reads_per_codon : R;
  min_valid_codons_ratio : R;
  min_density_over_orf : R
}.

(** The numeric fields of an output row. *)
Record orf_row : Type := mkRow {
  row_status : status;
  row_phase_score : R;
  row_read_count : Z;
  row_length : nat;
  row_valid_codons : Z;
  row_valid_codons_ratio : R;
  row_read_density : R
}.

Definition Rgeb (a b : R) : bool := if Rge_dec a b then true else false.

(** Lines 266-276: the conditional expression that sets [status]. *)
Definition gate (th : thresholds) (coh : R) (valid_codons : Z)
  (codon_coverage : list Z) (valid_codons_ratio orf_density : R) : status :=
  if Rgeb coh (phase_score_cutoff th)
     && Rgeb (IZR valid_codons) (min_valid_codons th)
     && forallb (fun c => Rgeb (IZR c) (min_reads_per_codon th)) codon_coverage
     && Rgeb valid_codons_ratio (min_valid_codons_ratio th)
     && Rgeb orf_density (min_density_over_orf th)
  then translating else nontranslating.

(** [a / b] on Python ints.  (Line 264 divides a numpy sum, which would not
    raise on a zero divisor; it is only reached once line 262 has divided by
    the same [n_codons] without raising.) *)
Definition int_truediv (a b : Z) : raising R :=
  if (b =? 0)%Z then raise ZeroDivisionError else ret (IZR a / IZR b).

Definition zsum (l : list Z) : Z := fold_right Z.add 0%Z l.

Section Scorer.

(** [ribotricer.statistics.coherence] and
    [ribotricer.common.collapse_coverage_to_codon] are imported by
    detect_orfs.py from modules that are not part of the sources at hand. *)
Variable coherence2 : list Z -> R * Z.
Variable collapse : list Z -> list Z.

(** Lines 254-276 for one coverage array. *)
Definition score_orf (th : thresholds) (cov : list Z) : raising orf_row :=
  let count := zsum cov in
  let length := List.length cov in
  let '(coh, valid_codons) := coherence2 cov in
  let n_codons := Z.of_nat (length / 3) in
  let codon_coverage := collapse cov in
  valid_codons_ratio <- int_truediv valid_codons n_codons ;;
  orf_density <- int_truediv (zsum codon_coverage) n_codons ;;
  ret (mkRow (gate th coh valid_codons codon_coverage
                valid_codons_ratio orf_density)
             coh count length valid_codons valid_codons_ratio orf_density).

(** Lines 277-301: a nontranslating row is written only under
    [report_all]. *)
Definition export_row (report_all : bool) (th : thresholds) (cov : list Z)
  : raising (option orf_row) :=
  r <- score_orf th cov ;;
  ret (match row_status r with
       | nontranslating => if report_all then Some r else None
       | translating => Some r
       end).

End Scorer.

(** Modelled from the spec: [collapse_coverage_to_codon] lives in
    ribotricer/common.py, which is not among the sources; the spec (4.4,
    step 2) has it sum every 3 consecutive positions. *)
Fixpoint collapse_coverage_to_codon (cov : list Z) : list Z :=
  match cov with
  | a :: b :: c :: rest => (a + b + c)%Z :: collapse_coverage_to_codon rest
  | _ => []
  end.

(** Modelled from the spec: [CUTOFF] and [MINIMUM_VALID_CODONS] are defined in
    ribotricer/const.py, which is not among the sources; the spec (section 8)
    gives their defaults as 0.4275 and 5. *)
Definition CUTOFF : R := 4275 / 10000.
Definition MINIMUM_VALID_CODONS : R := 5.

Definition default_thresholds : thresholds :=
  mkThresholds CUTOFF MINIMUM_VALID_CODONS 0 0 0.


(** ** The phase-vector density, over binary64 *)

Module PhaseVector.

Local Open Scope float_scope.

(** [np.pi]. *)
Definition np_pi : float := 0x1.921fb54442d18p+1.

(** [a ** 2] on floats. *)
Definition sq (a : float) : float := a * a.

(** Python's [min(a, b)]: [b] when [b < a], else [a]. *)
Definition py_min (a b : float) : float := if b <? a then b else a.

(** A numpy boolean as a factor of a float product. *)
Definition of_bool (b : bool) : float := if b then 1 else 0.

(** [_integrate_v2_v3], lines 12-22. *)
Definition _integrate_v2_v3 (v2 v3 : float) : float :=
  let term1 := 4 * v2 - sq v2 in
  let term2 := 4 * v2 - sq (v2 - v3 + 1) in
  1 / PrimFloat.sqrt (term1 * term2).

(** The bounds of integration, lines 39-40. *)
Definition epsilon2 (v3 : float) : float :=
  py_min 4 (sq (1 + PrimFloat.sqrt v3)).
Definition delta2 (v3 : float) : float := sq (1 - PrimFloat.sqrt v3).

Section Library.

(** [scipy.integrate.quad (f, a, b)[0]], [scipy.stats.ncx2.pdf],
    [scipy.special.jv] and [np.exp]: third-party numerics, kept
    abstract. *)
Variable quad : (float -> float) -> float -> float -> float.
Variable ncx2_pdf : float -> float -> float -> float.
Variable jv : float -> float -> float.
Variable np_exp : float -> float.

(** [integral_p3], lines 25-42. *)
Definition integral_p3 (v3 : float) : float :=
  if (v3 <? 0) || (9 <? v3) then 0
  else quad (fun v2 => _integrate_v2_v3 v2 v3) (delta2 v3) (epsilon2 v3).

(** [phase_vector_pdf], lines 64-86; [scipy_form] is [form == 'scipy'].
    For [k <= 0] no branch binds [p] and [return p] raises. *)
Definition phase_vector_pdf (x : list float) (k : Z) (scipy_form : bool)
  : raising (list float) :=
  if (k =? 1)%Z then ret (repeat 0 (List.length x))
  else if (k =? 2)%Z then
    let p := map (fun xi => (1 / np_pi) * (1 / PrimFloat.sqrt (xi * (4 - xi)))) x in
    ret (map (fun '(xi, pi) => of_bool ((xi <=? 4) && (0 <=? xi)) * pi)
           (combine x p))
  else if (k =? 3)%Z then
    let p := map (fun v3 => 1 / sq np_pi * integral_p3 v3) x in
    ret (map (fun '(xi, pi) => of_bool ((xi <=? 9) && (0 <=? xi)) * pi)
           (combine x p))
  else if (4 <=? k)%Z then
    let km1 := of_uint63 (Uint63.of_Z (k - 1)) in
    if negb scipy_form then
      let p := map (fun xi => 1 / km1
                      * (np_exp (- (xi + 1) / km1)
                         * jv 0 (2 * PrimFloat.sqrt xi / km1))) x in
      ret (map (fun '(xi, pi) => of_bool (0 <=? xi) * pi) (combine x p))
    else
      let x := map (fun xi => 2 * xi / km1) x in
      let df := 2 in
      let nc := 2 / km1 in
      ret (map (fun xi => 2 * ncx2_pdf xi df nc / km1) x)
  else raise UnboundLocalError.

End Library.

(** A finite positive float. *)
Definition finite_positive (r : float) : bool := (0 <? r) && (r <? infinity).

(** What a quadrature routine returns on an interval of zero width is not a
    finite positive number (a rule [(b - a) * sum w_i f(x_i)] gives a zero
    there, or NaN when the integrand is not finite). *)
Definition zero_width_quad (quad : (float -> float) -> float -> float -> float)
  : Prop :=
  forall f a, finite_positive (quad f a a) = false.

(** The one-panel midpoint rule, the simplest such routine. *)
Definition midpoint_rule (f : float -> float) (a b : float) : float :=
  (b - a) * f ((a + b) / 2).



End PhaseVector.

(** ** The kernel of [integral_p3] in exact arithmetic

    Lines 19-21 and 39-41 read over the real numbers, with the quadrature a
    rule of weights and nodes. *)

Module PhaseVectorExact.

(** [_integrate_v2_v3], lines 19-21. *)
Definition _integrate_v2_v3 (v2 v3 : R) : R :=
  let term1 := 4 * v2 - v2 ^ 2 in
  let term2 := 4 * v2 - (v2 - v3 + 1) ^ 2 in
  1 / sqrt (term1 * term2).

(** The bounds of integration, lines 39-40. *)
Definition epsilon2 (v3 : R) : R := Rmin 4 ((1 + sqrt v3) ^ 2).
Definition delta2 (v3 : R) : R := (1 - sqrt v3) ^ 2.

(** A quadrature rule: its weights, each with its node as a fraction of the
    interval. *)
Definition rule : Type := list (R * R).

Definition quad (r : rule) (f : R -> R) (a b : R) : R :=
  (b - a)
  * fold_right (fun wt acc => fst wt * f (a + snd wt * (b - a)) + acc) 0 r.


(** [integral_p3], lines 37-42. *)
Definition integral_p3 (r : rule) (v3 : R) : R :=
  if Rlt_dec v3 0 then 0
  else if Rgt_dec v3 9 then 0
  else quad r (fun v2 => _integrate_v2_v3 v2 v3) (delta2 v3) (epsilon2 v3).

End PhaseVectorExact.

(** * The normalization of a codon *)

(** The modulus of the period-3 Fourier component of a triplet. *)
Definition fourier_modulus (a b c : R) : R :=
  sqrt ((a + b * cos (2 * PI / 3) + c * cos (4 * PI / 3)) ^ 2
        + (b * sin (2 * PI / 3) + c * sin (4 * PI / 3)) ^ 2).

(** * The input side: intervals, reads, ORFs, coverage *)

(** ** [Interval] and [merge_intervals] (common.py, lines 209-233) *)

(** The class [Interval] comes from the module [interval] of the package
    (common.py, line 5; orf.py, line 14).  It is modelled by its uses: a
    constructor of four arguments, [Interval(chrom, start, end, strand)]
    (common.py, lines 225-226; orf.py, line 89), whose attributes are read
    and, for [end], assigned (common.py, line 229) as plain fields. *)
Record Interval : Type := mkInterval {
  chrom : String.string;
  start : Z;
  end_ : Z;
  strand : String.string
}.

(** [sorted(intervals, key=lambda x: x.start)], line 221: a stable sort, so
    intervals with the same start keep their order. *)
Fixpoint insert_by_start (x : Interval) (l : list Interval) : list Interval :=
  match l with
  | [] => [x]
  | y :: l' =>
      if (start x <=? start y)%Z then x :: l else y :: insert_by_start x l'
  end.

Definition sorted_by_start (l : list Interval) : list Interval :=
  fold_right insert_by_start [] l.

(** [to_merge.end = e], line 229. *)
Definition set_end (iv : Interval) (e : Z) : Interval :=
  mkInterval (chrom iv) (start iv) e (strand iv).

(** The loops of lines 224-232 from [to_merge] on: the inner loop extends
    [to_merge] while the next interval starts at or before its end. *)
Fixpoint merge_run (to_merge : Interval) (rest : list Interval) : list Interval :=
  match rest with
  | [] => [to_merge]
  | next :: rest' =>
      if (start next <=? end_ to_merge)%Z
      then merge_run (set_end to_merge (Z.max (end_ to_merge) (end_ next))) rest'
      else to_merge :: merge_run next rest'
  end.

Definition merge_intervals (intervals : list Interval) : list Interval :=
  match sorted_by_start intervals with
  | [] => []
  | first :: rest => merge_run first rest
  end.

Definition le_start (a b : Interval) : Prop := (start a <= start b)%Z.
Definition apart (a b : Interval) : Prop := (end_ a < start b)%Z.
Definition covers (iv : Interval) (p : Z) : Prop := (start iv <= p <= end_ iv)%Z.
Definition covered (l : list Interval) (p : Z) : Prop :=
  exists iv, In iv l /\ covers iv p.
Definition same_coords (a b : Interval) : Prop :=
  start a = start b /\ end_ a = end_ b.

(** ** Exceptions of the input-side code *)

Module Exc.
Inductive t : Type :=
| KeyError
| NameError
| ValueError
| SystemExit
| IndexError.
End Exc.

Definition outcome (A : Type) : Type := (Exc.t + A)%type.

(** ** [is_read_uniq_mapping] (common.py, lines 177-206) *)

(** What the function reads of a pysam alignment; the values of the tags are
    taken as integers (NH is one). *)
Record read : Type := mkRead {
  is_secondary : bool;
  get_tags : list (String.string * Z);
  mapping_quality : Z;
  flag : Z
}.

(** [dict(pairs)[key]]: the value of the last pair with that key, if any. *)
Fixpoint dict_of_pairs (pairs : list (String.string * Z)) (key : String.string)
  : option Z :=
  match pairs with
  | [] => None
  | (k, v) :: rest =>
      match dict_of_pairs rest key with
      | Some v' => Some v'
      | None => if String.eqb k key then Some v else None
      end
  end.

(** [__SAM_NOT_UNIQ_FLAGS__] is bound nowhere in common.py: evaluating it
    raises [NameError]. *)
Definition is_read_uniq_mapping (r : read) : outcome bool :=
  if is_secondary r then inr false
  else
    match dict_of_pairs (get_tags r) "NH"%string with
    | None =>
        if (mapping_quality r =? 255)%Z then inr true
        else if (mapping_quality r <? 1)%Z then inr false
        else inl Exc.NameError
    | Some nh_count => if (nh_count =? 1)%Z then inr true else inr false
    end.

(** ** The class [ORF] (orf.py) *)

(** [str(z)] for a Python int. *)
Definition str_of_int (z : Z) : String.string :=
  DecimalString.NilZero.string_of_int (Z.to_int z).

Definition zsum_map {A : Type} (f : A -> Z) (l : list A) : Z :=
  fold_right (fun a acc => (f a + acc)%Z) 0%Z l.

Module ORF.

Record t : Type := mk {
  category : String.string;
  tid : String.string;
  ttype : String.string;
  gid : String.string;
  gname : String.string;
  gtype : String.string;
  chrom : String.string;
  strand : String.string;
  intervals : list Interval;
  oid : String.string;
  seq : String.string;
  leader : String.string;
  trailer : String.string
}.

(** [__init__], lines 20-49: [self.intervals[0]] raises on an empty list. *)
Definition init (category transcript_id transcript_type gene_id gene_name
                 gene_type chrom strand : String.string)
  (intervals : list Interval) (seq leader trailer : String.string)
  : outcome t :=
  let intervals := sorted_by_start intervals in
  match intervals with
  | [] => inl Exc.IndexError
  | first :: _ =>
      let start' := start first in
      let end' := end_ (last intervals first) in
      let oid :=
        String.concat "_"%string
          [transcript_id; str_of_int start'; str_of_int end';
           str_of_int (zsum_map (fun x => end_ x - start x + 1)%Z intervals)] in
      inr (mk category transcript_id transcript_type gene_id gene_name gene_type
              chrom strand intervals oid seq leader trailer)
  end.

(** [start_codon], lines 51-55. *)
Definition start_codon (self : t) : option String.string :=
  if (String.length (seq self) <? 3)%nat then None
  else Some (String.substring 0 3 (seq self)).

End ORF.

(** ** [orf_coverage] (detect_orfs.py, lines 129-192) *)

(** detect_orfs.py takes [ORF] from the module [orf] of its own package
    (line 34); the class read here is that of orf.py above, of which
    [orf_coverage] uses the attributes [chrom], [strand], [intervals] and
    [category] only. *)

(** A dict as the list of its items, in insertion order. *)
Fixpoint lookup {K V : Type} (eqb : K -> K -> bool) (d : list (K * V)) (k : K)
  : option V :=
  match d with
  | [] => None
  | (k', v) :: rest => if eqb k' k then Some v else lookup eqb rest k
  end.

Definition contains {K V : Type} (eqb : K -> K -> bool) (d : list (K * V)) (k : K)
  : bool :=
  match lookup eqb d k with
  | Some _ => true
  | None => false
  end.

Definition position : Type := (String.string * Z)%type.
Definition position_eqb (a b : position) : bool :=
  String.eqb (fst a) (fst b) && (snd a =? snd b)%Z.

Definition Counter : Type := list (position * Z).
Definition by_strand : Type := list (String.string * Counter).

(** [try: alignments[strand][(chrom, pos)] except KeyError: 0].  The value
    is 0 as well when [alignments] is the [defaultdict(Counter)] that
    [merge_read_lengths] returns, where no lookup raises. *)
Definition count_try (alignments : by_strand) (strand chrom : String.string)
  (pos : Z) : Z :=
  match lookup String.eqb alignments strand with
  | None => 0%Z
  | Some c =>
      match lookup position_eqb c (chrom, pos) with
      | None => 0%Z
      | Some n => n
      end
  end.

(** [alignments[strand][(chrom, pos)] if strand in alignments and
    (chrom, pos) in alignments[strand] else 0]. *)
Definition count_if (alignments : by_strand) (strand chrom : String.string)
  (pos : Z) : Z :=
  if contains String.eqb alignments strand
     && match lookup String.eqb alignments strand with
        | Some c => contains position_eqb c (chrom, pos)
        | None => false
        end
  then count_try alignments strand chrom pos
  else 0%Z.

(** [range(a, b)]. *)
Definition zrange (a b : Z) : list Z :=
  map (fun i => (a + Z.of_nat i)%Z) (seq 0 (Z.to_nat (b - a))).

Definition orf_coverage (orf : ORF.t) (alignments : by_strand)
  (offset_5p offset_3p : Z) : outcome (list Z) :=
  let chrom := ORF.chrom orf in
  let strand := ORF.strand orf in
  let '(offset_5p, offset_3p) :=
    if String.eqb strand "-" then (offset_3p, offset_5p)
    else (offset_5p, offset_3p) in
  match ORF.intervals orf with
  | [] => inl Exc.IndexError
  | first :: _ =>
      let last := last (ORF.intervals orf) first in
      let count :=
        if String.eqb (ORF.category orf) "annotated"
        then count_try alignments strand chrom
        else count_if alignments strand chrom in
      let coverage :=
        map count (zrange (start first - offset_5p) (start first))
        ++ flat_map (fun interval =>
                       map count (zrange (start interval) (end_ interval + 1)))
             (ORF.intervals orf)
        ++ map count (zrange (end_ last + 1) (end_ last + offset_3p + 1)) in
      inr (if String.eqb strand "-" then rev coverage else coverage)
  end.

(** The number of positions of an interval. *)
Definition span (iv : Interval) : nat := Z.to_nat (end_ iv + 1 - start iv).

(** ** [merge_read_lengths] (detect_orfs.py, lines 43-71) *)

(** [d[k]] where a missing key counts for 0 (a [Counter]). *)
Definition get0 (c : Counter) (key : position) : Z :=
  match lookup position_eqb c key with
  | Some n => n
  | None => 0%Z
  end.

(** [c[key] += count] on a [Counter]. *)
Fixpoint counter_add (c : Counter) (key : position) (count : Z) : Counter :=
  match c with
  | [] => [(key, (0 + count)%Z)]
  | (k, n) :: rest =>
      if position_eqb k key then (k, (n + count)%Z) :: rest
      else (k, n) :: counter_add rest key count
  end.

(** [merged[strand][key] += count] on a [defaultdict(Counter)]. *)
Fixpoint merged_add (merged : by_strand) (strand : String.string)
  (key : position) (count : Z) : by_strand :=
  match merged with
  | [] => [(strand, counter_add [] key count)]
  | (s, c) :: rest =>
      if String.eqb s strand then (s, counter_add c key count) :: rest
      else (s, c) :: merged_add rest strand key count
  end.

Definition pos_shifted (strand : String.string) (offset pos : Z) : Z :=
  if String.eqb strand "+" then (pos + offset)%Z else (pos - offset)%Z.

(** Lines 64-70: the loop over the positions of one strand. *)
Definition merge_positions (merged : by_strand) (strand : String.string)
  (c : Counter) (offset : Z) : by_strand :=
  fold_left
    (fun merged key =>
       let count := get0 c key in
       merged_add merged strand (fst key, pos_shifted strand offset (snd key))
         count)
    (map fst c) merged.

(** Lines 63-70: the loop over the strands of one read length. *)
Definition merge_strands (merged : by_strand) (per_strand : by_strand)
  (offset : Z) : by_strand :=
  fold_left
    (fun merged strand =>
       match lookup String.eqb per_strand strand with
       | Some c => merge_positions merged strand c offset
       | None => merged
       end)
    (map fst per_strand) merged.

(** Lines 62-70: [alignments[length]] raises on a length that is not a
    key. *)
Fixpoint merge_lengths (alignments : list (Z * by_strand))
  (items : list (Z * Z)) (merged : by_strand) : outcome by_strand :=
  match items with
  | [] => inr merged
  | (length, offset) :: items' =>
      match lookup Z.eqb alignments length with
      | None => inl Exc.KeyError
      | Some per_strand =>
          merge_lengths alignments items' (merge_strands merged per_strand offset)
      end
  end.

Definition merge_read_lengths (alignments : list (Z * by_strand))
  (psite_offsets : list (Z * Z)) : outcome by_strand :=
  merge_lengths alignments psite_offsets [].

(** The position a shifted one comes from. *)
Definition pos_unshifted (strand : String.string) (offset pos : Z) : Z :=
  if String.eqb strand "+" then (pos - offset)%Z else (pos + offset)%Z.

(** The keys of a dict are distinct. *)
Definition distinct_keys {K V : Type} (d : list (K * V)) : Prop :=
  NoDup (map fst d).

Definition well_formed (alignments : list (Z * by_strand)) : Prop :=
  forall length per_strand,
    In (length, per_strand) alignments ->
    distinct_keys per_strand
    /\ forall strand c, In (strand, c) per_strand -> distinct_keys c.

(** The reads of every listed length at the position that shifts to
    [(chrom, pos)]. *)
Fixpoint shifted_total (alignments : list (Z * by_strand))
  (items : list (Z * Z)) (strand chrom : String.string) (pos : Z) : Z :=
  match items with
  | [] => 0%Z
  | (length, offset) :: items' =>
      (match lookup Z.eqb alignments length with
       | Some per_strand =>
           count_try per_strand strand chrom (pos_unshifted strand offset pos)
       | None => 0
       end + shifted_total alignments items' strand chrom pos)%Z
  end.

(** ** [ORF.from_string] (orf.py, lines 57-94) *)

(** [s.split(sep)] for a separator of one character. *)
Fixpoint split (sep : Ascii.ascii) (s : String.string) : list String.string :=
  match s with
  | String.EmptyString => [String.EmptyString]
  | String.String c s' =>
      if Ascii.eqb c sep then String.EmptyString :: split sep s'
      else
        match split sep s' with
        | [] => [String.String c String.EmptyString]
        | w :: ws => String.String c w :: ws
        end
  end.

Definition tab : Ascii.ascii := Ascii.ascii_of_nat 9.

(** [needle in s] on strings. *)
Fixpoint str_in (needle s : String.string) : bool :=
  String.prefix needle s
  || match s with
     | String.EmptyString => false
     | String.String _ s' => str_in needle s'
     end.

(** The reading of decimal digits, for worked examples of [int]. *)
Definition digit_of (c : Ascii.ascii) : option Z :=
  let n := Ascii.nat_of_ascii c in
  if (48 <=? n)%nat && (n <=? 57)%nat then Some (Z.of_nat (n - 48)) else None.

Fixpoint digits_value (s : String.string) (acc : Z) : option Z :=
  match s with
  | String.EmptyString => Some acc
  | String.String c s' =>
      match digit_of c with
      | Some d => digits_value s' (10 * acc + d)%Z
      | None => None
      end
  end.

Definition int_of_digits (s : String.string) : option Z :=
  match s with
  | String.EmptyString => None
  | _ => digits_value s 0%Z
  end.

Fixpoint mapM {A B : Type} (f : A -> outcome B) (l : list A) : outcome (list B) :=
  match l with
  | [] => inr []
  | a :: l' =>
      match f a with
      | inl e => inl e
      | inr b =>
          match mapM f l' with
          | inl e => inl e
          | inr bs => inr (b :: bs)
          end
      end
  end.

Section FromString.

(** Python's [int] on a string: [None] stands for [ValueError]. *)
Variable py_int : String.string -> option Z.

(** Lines 85-89 for one group of the coordinate column. *)
Definition parse_group (chrom strand group : String.string) : outcome Interval :=
  match split "-"%char group with
  | [start; end'] =>
      match py_int start with
      | None => inl Exc.ValueError
      | Some start =>
          match py_int end' with
          | None => inl Exc.ValueError
          | Some end' => inr (mkInterval chrom start end' strand)
          end
      end
  | _ => inl Exc.ValueError
  end.

(** A group of the coordinate column that lines 86-88 accept: two parts
    around one [-], each read by [int]. *)
Definition well_formed_group (group : String.string) : Prop :=
  exists a b, split "-"%char group = [a; b]
              /\ py_int a <> None /\ py_int b <> None.

(** [from_string]: [None] on an empty line, [sys.exit] unless the line has
    10 columns. *)
Definition from_string (line : String.string) : outcome (option ORF.t) :=
  if String.eqb line "" then inr None
  else
    match split tab line with
    | [oid; category; tid; ttype; gid; gname; gtype; chrom; strand; coordinate] =>
        match mapM (parse_group chrom strand) (split ","%char coordinate) with
        | inl e => inl e
        | inr intervals =>
            match ORF.init category tid ttype gid gname gtype chrom strand
                    intervals "" "" "" with
            | inl e => inl e
            | inr orf => inr (Some orf)
            end
        end
    | _ => inl Exc.SystemExit
    end.

(** ** [parse_ribotricer_index] (detect_orfs.py, lines 74-126) *)

(** [ORF.from_string] is read as the class method of orf.py above.  The
    interval trees of [quicksect] are kept as the lists of what is inserted
    in them. *)

Definition STRAND_TO_NUM (strand : String.string) : option Z :=
  if String.eqb strand "+" then Some 1%Z
  else if String.eqb strand "-" then Some (-1)%Z
  else None.

(** The interval trees, by chromosome, as the lists of what was inserted. *)
Definition refseq_t : Type := list (String.string * list (Z * Z * Z)).

Fixpoint refseq_insert (refseq : refseq_t) (chrom : String.string)
  (item : Z * Z * Z) : refseq_t :=
  match refseq with
  | [] => [(chrom, [item])]
  | (c, tree) :: rest =>
      if String.eqb c chrom then (c, tree ++ [item]) :: rest
      else (c, tree) :: refseq_insert rest chrom item
  end.

(** Lines 116-125 on the line just read. *)
Definition parse_line (line : String.string) (acc : list ORF.t * refseq_t)
  : outcome (list ORF.t * refseq_t) :=
  match from_string line with
  | inl e => inl e
  | inr None => inr acc
  | inr (Some orf) =>
      if String.eqb (ORF.category orf) "annotated" then
        match ORF.intervals orf with
        | [] => inl Exc.IndexError
        | first :: _ =>
            match STRAND_TO_NUM (ORF.strand orf) with
            | None => inl Exc.KeyError
            | Some num =>
                inr (fst acc ++ [orf],
                     refseq_insert (snd acc) (ORF.chrom orf)
                       (start first, end_ (last (ORF.intervals orf) first), num))
            end
        end
      else inr acc
  end.

(** The [while "annotated" in line] loop, lines 113-125: [line] is the line
    last read, [rest] what [readline] has still to give ([''] once the file
    is exhausted). *)
Fixpoint parse_loop (line : String.string) (rest : list String.string)
  (acc : list ORF.t * refseq_t) : outcome (list ORF.t * refseq_t) :=
  if str_in "annotated" line then
    match rest with
    | [] => parse_line "" acc
    | next :: rest' =>
        match parse_line next acc with
        | inl e => inl e
        | inr acc' => parse_loop next rest' acc'
        end
    end
  else inr acc.

(** The second pass over the file, lines 108-126, on the lines of the file. *)
Definition parse_ribotricer_index (lines : list String.string)
  : outcome (list ORF.t * refseq_t) :=
  match lines with
  | _header :: line :: rest => parse_loop line rest ([], [])
  | _ => parse_loop "" [] ([], [])
  end.

(** The line and the ORF it is parsed to, for an annotated ORF on a known
    strand. *)
Definition annotated_line (line : String.string) (orf : ORF.t) : Prop :=
  str_in "annotated" line = true
  /\ from_string line = inr (Some orf)
  /\ ORF.category orf = "annotated"%string
  /\ STRAND_TO_NUM (ORF.strand orf) <> None.

End FromString.

(** A line and an ORF of the worked examples. *)
Definition join_tab (fields : list String.string) : String.string :=
  String.concat (String.String tab String.EmptyString) fields.

Definition index_line (oid coordinate : String.string) : String.string :=
  join_tab [oid; "annotated"%string; "T1"%string; "mRNA"%string; "G1"%string; "g"%string; "pc"%string; "chr1"%string; "+"%string; coordinate].

Definition index_orf (intervals : list Interval) (oid : String.string) : ORF.t :=
  ORF.mk "annotated" "T1" "mRNA" "G1" "g" "pc" "chr1" "+" intervals oid "" "" "".

(** One set of thresholds is at most another, gate by gate. *)
Definition thresholds_le (th' th : thresholds) : Prop :=
  phase_score_cutoff th' <= phase_score_cutoff th
  /\ min_valid_codons th' <= min_valid_codons th
  /\ min_reads_per_codon th' <= min_reads_per_codon th
  /\ min_valid_codons_ratio th' <= min_valid_codons_ratio th
  /\ min_density_over_orf th' <= min_density_over_orf th.

(** An ORF of two exons and the alignments of two read lengths, for worked
    examples. *)
Definition orf_two_exons (category strand : String.string) : ORF.t :=
  ORF.mk category "T1" "mRNA" "G1" "g" "pc" "chr1" strand
    [mkInterval "chr1" 1 9 strand; mkInterval "chr1" 20 30 strand]
    "T1_1_30_20" "" "" "".

Definition alignments_28_29 : list (Z * by_strand) :=
  [(28%Z, [("+"%string, [(("chr1"%string, 10%Z), 3%Z)]);
           ("-"%string, [(("chr1"%string, 50%Z), 1%Z)])]);
   (29%Z, [("+"%string, [(("chr1"%string, 9%Z), 2%Z)])])].


(** * Properties *)

(** ** The survival function *)


Lemma exp_partial_deriv k y :
  derivable_pt_lim (exp_partial (S k)) y (exp_partial k y).
Proof.
  induction k as [|k IH].
  - apply derivable_pt_lim_ext with (f := fct_cte 1).
    + intro z. unfold fct_cte. simpl. field.
    + simpl. apply derivable_pt_lim_const.
  - apply derivable_pt_lim_ext
      with (f := (exp_partial (S k) + mult_real_fct (/ INR (fact (S k))) (fun z => z ^ S k))%F).
    + intro z. unfold plus_fct, mult_real_fct. 
      change (exp_partial (S (S k)) z) with (exp_partial (S k) z + z ^ S k / INR (fact (S k))).
      unfold Rdiv. ring.
    + replace (exp_partial (S k) y)
        with (exp_partial k y + / INR (fact (S k)) * (INR (S k) * y ^ pred (S k))).
      * apply derivable_pt_lim_plus; [exact IH|].
        apply derivable_pt_lim_scal. apply derivable_pt_lim_pow.
      * change (exp_partial (S k) y) with (exp_partial k y + y ^ k / INR (fact k)).
        rewrite fact_simpl, mult_INR. simpl pred.
        field. split; [apply INR_fact_neq_0 | apply not_0_INR; lia].
Qed.

Lemma erlang_sf_deriv k y :
  derivable_pt_lim (erlang_sf (S k)) y (- (exp (- y) * (y ^ k / INR (fact k)))).
Proof.
  unfold erlang_sf.
  apply derivable_pt_lim_ext
    with (f := (comp exp (- id) * exp_partial (S k))%F).
  - intro z. reflexivity.
  - replace (- (exp (- y) * (y ^ k / INR (fact k))))
      with ((exp (- y) * - 1) * exp_partial (S k) y + comp exp (- id)%F y * exp_partial k y).
    + apply derivable_pt_lim_mult.
      * apply derivable_pt_lim_comp.
        -- apply derivable_pt_lim_opp. apply derivable_pt_lim_id.
        -- apply derivable_pt_lim_exp.
      * apply exp_partial_deriv.
    + unfold comp, opp_fct, id. simpl. ring.
Qed.

Lemma exp_partial_nonneg k y : 0 <= y -> 0 <= exp_partial k y.
Proof.
  intros Hy. induction k as [|k IH]; simpl; [lra|].
  apply Rplus_le_le_0_compat; [exact IH|].
  apply Rmult_le_pos; [apply pow_le; exact Hy|].
  left. apply Rinv_0_lt_compat. apply INR_fact_lt_0.
Qed.

Lemma exp_partial_0 k : exp_partial (S k) 0 = 1.
Proof.
  induction k as [|k IH].
  - simpl. field.
  - change (exp_partial (S (S k)) 0) with (exp_partial (S k) 0 + 0 ^ S k / INR (fact (S k))).
    rewrite IH, pow_i by lia. unfold Rdiv. ring.
Qed.

Lemma erlang_sf_0 k : erlang_sf (S k) 0 = 1.
Proof. unfold erlang_sf. rewrite exp_partial_0, Ropp_0, exp_0. ring. Qed.

Lemma erlang_sf_nonneg k y : 0 <= y -> 0 <= erlang_sf k y.
Proof.
  intros Hy. unfold erlang_sf. apply Rmult_le_pos.
  - left. apply exp_pos.
  - apply exp_partial_nonneg. exact Hy.
Qed.

Lemma erlang_sf_decr k y z : 0 <= y -> y <= z -> erlang_sf (S k) z <= erlang_sf (S k) y.
Proof.
  intros Hy [Hlt | ->]; [|lra].
  destruct (MVT_cor2 (erlang_sf (S k))
              (fun c => - (exp (- c) * (c ^ k / INR (fact k)))) y z Hlt)
    as [c [Hc Hin]].
  - intros c _. apply erlang_sf_deriv.
  - assert (0 <= exp (- c) * (c ^ k / INR (fact k))).
    { apply Rmult_le_pos; [left; apply exp_pos|].
      apply Rmult_le_pos; [apply pow_le; lra|].
      left. apply Rinv_0_lt_compat. apply INR_fact_lt_0. }
    nra.
Qed.

Lemma erlang_sf_le_1 k y : 0 <= y -> erlang_sf (S k) y <= 1.
Proof.
  intros Hy. rewrite <- (erlang_sf_0 k). apply erlang_sf_decr; lra.
Qed.

Lemma series_sum_eq u l : infinite_sum u l -> series_sum u = l.
Proof.
  intros H. unfold series_sum.
  apply uniqueness_sum with (An := u); [|exact H].
  apply epsilon_spec. exists l. exact H.
Qed.

Lemma poisson_pmf_nonneg mu j : 0 <= mu -> 0 <= poisson_pmf mu j.
Proof.
  intros Hmu. unfold poisson_pmf. apply Rmult_le_pos; [left; apply exp_pos|].
  apply Rmult_le_pos; [apply pow_le; exact Hmu|].
  left. apply Rinv_0_lt_compat. apply INR_fact_lt_0.
Qed.

Lemma poisson_pmf_sum mu : infinite_sum (poisson_pmf mu) 1.
Proof.
  assert (Hexp : exp_in mu (exp mu)).
  { unfold exp. destruct (exist_exp mu) as [l Hl]. exact Hl. }
  unfold exp_in, infinite_sum in Hexp.
  assert (Hcv : Un_cv (fun N => exp (- mu) * sum_f_R0 (fun i => / INR (fact i) * mu ^ i) N)
                  (exp (- mu) * exp mu)).
  { apply CV_mult with (An := fun _ => exp (- mu)).
    - intros eps Heps. exists 0%nat. intros n _.
      unfold R_dist. rewrite Rminus_diag, Rabs_R0. exact Heps.
    - exact Hexp. }
  rewrite <- exp_plus, Rplus_opp_l, exp_0 in Hcv.
  intros eps Heps. destruct (Hcv eps Heps) as [N HN]. exists N. intros n Hn.
  specialize (HN n Hn).
  replace (sum_f_R0 (poisson_pmf mu) n)
    with (exp (- mu) * sum_f_R0 (fun i => / INR (fact i) * mu ^ i) n); [exact HN|].
  rewrite scal_sum. apply sum_eq. intros i _. unfold poisson_pmf, Rdiv. ring.
Qed.

Lemma ncx2_term_bounds x m nc j :
  0 <= x -> 0 <= nc ->
  0 <= ncx2_term x (S m) nc j <= poisson_pmf (nc / 2) j.
Proof.
  intros Hx Hnc. unfold ncx2_term.
  assert (Hp := poisson_pmf_nonneg (nc / 2) j ltac:(lra)).
  assert (H0 := erlang_sf_nonneg (S m + j) (x / 2) ltac:(lra)).
  assert (H1 := erlang_sf_le_1 (m + j) (x / 2) ltac:(lra)).
  change (S (m + j)) with (S m + j)%nat in H1.
  split; nra.
Qed.

Lemma ncx2_term_cv x m nc :
  0 <= x -> 0 <= nc ->
  infinite_sum (ncx2_term x (S m) nc) (series_sum (ncx2_term x (S m) nc)).
Proof.
  intros Hx Hnc.
  destruct (Rseries_CV_comp (ncx2_term x (S m) nc) (poisson_pmf (nc / 2))) as [l Hl].
  - intro n. apply ncx2_term_bounds; assumption.
  - exists 1. apply poisson_pmf_sum.
  - rewrite (series_sum_eq _ l); exact Hl.
Qed.

Lemma ncx2_series_le_1 x m nc :
  0 <= x -> 0 <= nc -> series_sum (ncx2_term x (S m) nc) <= 1.
Proof.
  intros Hx Hnc.
  apply Rle_cv_lim with (Un := fun N => sum_f_R0 (ncx2_term x (S m) nc) N)
                        (Vn := fun N => sum_f_R0 (poisson_pmf (nc / 2)) N).
  - intro n. apply sum_Rle. intros i _. apply ncx2_term_bounds; assumption.
  - apply ncx2_term_cv; assumption.
  - apply poisson_pmf_sum.
Qed.

Lemma ncx2_series_decr x1 x2 m nc :
  0 <= x1 -> x1 <= x2 -> 0 <= nc ->
  series_sum (ncx2_term x2 (S m) nc) <= series_sum (ncx2_term x1 (S m) nc).
Proof.
  intros H1 H12 Hnc.
  apply Rle_cv_lim with (Un := fun N => sum_f_R0 (ncx2_term x2 (S m) nc) N)
                        (Vn := fun N => sum_f_R0 (ncx2_term x1 (S m) nc) N).
  - intro n. apply sum_Rle. intros i _. unfold ncx2_term.
    apply Rmult_le_compat_l; [apply poisson_pmf_nonneg; lra|].
    apply erlang_sf_decr; lra.
  - apply ncx2_term_cv; lra.
  - apply ncx2_term_cv; lra.
Qed.

Lemma ncx2_series_0 m nc : series_sum (ncx2_term 0 (S m) nc) = 1.
Proof.
  apply series_sum_eq.
  intros eps Heps. destruct (poisson_pmf_sum (nc / 2) eps Heps) as [N HN].
  exists N. intros n Hn. specialize (HN n Hn).
  replace (sum_f_R0 (ncx2_term 0 (S m) nc) n) with (sum_f_R0 (poisson_pmf (nc / 2)) n);
    [exact HN|].
  apply sum_eq. intros i _. unfold ncx2_term.
  replace (0 / 2) with 0 by lra.
  change (S m + i)%nat with (S (m + i)). rewrite erlang_sf_0. ring.
Qed.

(** ** The frames of [coherence] *)


Lemma triple_ind (A : Type) (P : list A -> Prop) :
  P [] -> (forall a, P [a]) -> (forall a b, P [a; b]) ->
  (forall a b c rest, P rest -> P (a :: b :: c :: rest)) ->
  forall l, P l.
Proof.
  intros H0 H1 H2 H3.
  fix IH 1. intros [|a [|b [|c rest]]];
    [apply H0 | apply H1 | apply H2 | apply H3; apply IH].
Qed.

Lemma length_normalize_codons values :
  length (normalize_codons values) = (3 * retained_codons values)%nat.
Proof.
  induction values as [| | |v0 v1 v2 rest IH] using triple_ind; try reflexivity.
  simpl. destruct ((v0 =? v1) && (v1 =? v2) && (v2 =? 0))%Z.
  - exact IH.
  - simpl. rewrite IH. lia.
Qed.

Lemma truncated_length_eq v frame :
  truncated_length v frame = (3 * retained_codons (skipn frame v))%nat.
Proof.
  unfold truncated_length, frame_signal. rewrite length_normalize_codons.
  rewrite (Nat.mul_comm 3), Nat.div_mul by lia. lia.
Qed.

Lemma cos_2PI_3 : cos (2 * PI / 3) = - (1 / 2).
Proof. replace (2 * PI / 3) with (2 * (PI / 3)) by field. rewrite cos_2PI3. lra. Qed.

Lemma sin_2PI_3 : sin (2 * PI / 3) = sqrt 3 / 2.
Proof. replace (2 * PI / 3) with (2 * (PI / 3)) by field. apply sin_2PI3. Qed.

Lemma cos_4PI_3 : cos (4 * PI / 3) = - (1 / 2).
Proof.
  replace (4 * PI / 3) with (PI / 3 + PI) by field.
  rewrite neg_cos, cos_PI3. lra.
Qed.

Lemma sin_4PI_3 : sin (4 * PI / 3) = - (sqrt 3 / 2).
Proof.
  replace (4 * PI / 3) with (PI / 3 + PI) by field.
  rewrite neg_sin, sin_PI3. lra.
Qed.

Lemma sqrt3_sq : sqrt 3 * sqrt 3 = 3.
Proof. apply sqrt_sqrt. lra. Qed.

Lemma isclose_0_third : isclose 0 (1 / 3) = false.
Proof.
  unfold isclose. destruct (Rle_dec _ _) as [H|H]; [|reflexivity].
  exfalso. revert H. unfold Rabs. repeat destruct (Rcase_abs _); lra.
Qed.

Lemma isclose_third_third : isclose (1 / 3) (1 / 3) = true.
Proof.
  unfold isclose. destruct (Rle_dec _ _) as [H|H]; [reflexivity|].
  exfalso. apply H. unfold Rabs. repeat destruct (Rcase_abs _); lra.
Qed.

Lemma pvalue_one x : pvalue x 1 = raise ZeroDivisionError.
Proof. reflexivity. Qed.

Lemma frame_try_eq v frame :
  frame_try v frame =
    let length := truncated_length v frame in
    let nv := firstn length (frame_signal v frame) in
    let uni := uniform_signal (List.length nv / 3) in
    p <- pvalue (Cxy_bin nv uni 1) (Z.of_nat (length / 3)) ;;
    ret (Cxy_bin nv uni 1, p).
Proof.
  unfold frame_try, signal_coherence, try_periodicity. cbv zeta. simpl map.
  rewrite isclose_0_third, isclose_third_third. reflexivity.
Qed.

Lemma frame_try_single v frame :
  truncated_length v frame = 3%nat ->
  frame_try v frame = raise ZeroDivisionError.
Proof.
  intros H. rewrite frame_try_eq. cbv zeta. rewrite H. reflexivity.
Qed.

Lemma frame_periodicity_single v frame :
  truncated_length v frame = 3%nat ->
  frame_periodicity v frame = (Fin 0, Fin 1).
Proof.
  intros H. unfold frame_periodicity. rewrite (frame_try_single _ _ H). reflexivity.
Qed.

(** ** The spectral estimate against the uniform reference *)


Lemma rfft3_detrend a b c :
  rfft3 (detrend_constant (a, b, c)) 1 = (a - (b + c) / 2, - (sqrt 3 / 2 * (b - c))).
Proof.
  unfold rfft3, detrend_constant.
  rewrite cos_2PI_3, cos_4PI_3, sin_2PI_3, sin_4PI_3.
  f_equal; field.
Qed.

Lemma uniform_signal_S n : uniform_signal (S n) = 1 :: 0 :: 0 :: uniform_signal n.
Proof. reflexivity. Qed.

Lemma spectrum_cons a b c x bin :
  spectrum (a :: b :: c :: x) bin = rfft3 (detrend_constant (a, b, c)) bin :: spectrum x bin.
Proof. reflexivity. Qed.

Lemma spectrum_uniform n : spectrum (uniform_signal n) 1 = repeat (1, 0) n.
Proof.
  induction n as [|n IH]; [reflexivity|].
  rewrite uniform_signal_S, spectrum_cons, rfft3_detrend, IH. simpl.
  f_equal. f_equal; field.
Qed.

Lemma cross_uniform Xs :
  csum (map (fun p => cmul (cconj (fst p)) (snd p))
          (combine Xs (repeat (1, 0) (length Xs)))) = cconj (csum Xs).
Proof.
  induction Xs as [|[a b] Xs IH]; simpl.
  - unfold cconj. simpl. f_equal. ring.
  - rewrite IH. unfold cadd, cmul, cconj. simpl. f_equal; ring.
Qed.

Lemma cross_self Xs :
  csum (map (fun p => cmul (cconj (fst p)) (snd p)) (combine Xs Xs)) = (energy Xs, 0).
Proof.
  induction Xs as [|[a b] Xs IH]; simpl; [reflexivity|].
  rewrite IH. unfold cadd, cmul, cconj. simpl. f_equal; ring.
Qed.

Lemma length_cross (Xs Ys : list cplx) :
  length Xs = length Ys ->
  length (map (fun p => cmul (cconj (fst p)) (snd p)) (combine Xs Ys)) = length Xs.
Proof. intros H. rewrite length_map, length_combine, <- H. apply Nat.min_id. Qed.

Lemma welch_energy x :
  welch x 1 = 2 * (1 / 3) * (/ INR (length (spectrum x 1)) * energy (spectrum x 1)).
Proof.
  unfold welch, csd. cbv zeta. rewrite length_cross by reflexivity.
  rewrite cross_self. unfold cscale, onesided_scale. simpl fst. ring.
Qed.

Lemma csd_uniform x :
  let Xs := spectrum x 1 in
  csd x (uniform_signal (length Xs)) 1 =
    cscale (2 * (1 / 3)) (cscale (/ INR (length Xs)) (cconj (csum Xs))).
Proof.
  cbv zeta. unfold csd. cbv zeta. rewrite spectrum_uniform.
  rewrite length_cross by (rewrite repeat_length; reflexivity).
  rewrite cross_uniform. reflexivity.
Qed.

Lemma cabs_sq z : cabs z ^ 2 = fst z ^ 2 + snd z ^ 2.
Proof.
  unfold cabs. apply pow2_sqrt. nra.
Qed.

Lemma energy_nonneg Xs : 0 <= energy Xs.
Proof. induction Xs as [|[a b] Xs IH]; simpl; nra. Qed.

Lemma csum_norm_le Xs :
  fst (csum Xs) ^ 2 + snd (csum Xs) ^ 2 <= INR (length Xs) * energy Xs.
Proof.
  induction Xs as [|[a b] Xs IH].
  - simpl. lra.
  - change (csum ((a, b) :: Xs)) with (cadd (a, b) (csum Xs)).
    change (energy ((a, b) :: Xs)) with (a ^ 2 + b ^ 2 + energy Xs).
    change (length ((a, b) :: Xs)) with (S (length Xs)). rewrite S_INR.
    destruct (csum Xs) as [sr si]. simpl fst in *. simpl snd in *.
    assert (HQ := energy_nonneg Xs).
    assert (Hn := pos_INR (length Xs)).
    set (n := INR (length Xs)) in *. set (Q := energy Xs) in *.
    destruct (Req_dec n 0) as [Hz | Hnz].
    + rewrite Hz in *. assert (sr = 0) by nra. assert (si = 0) by nra. subst. nra.
    + assert (Hpos : 0 < n) by lra.
      apply Rmult_le_reg_l with n; [exact Hpos|].
      assert (0 <= (n * a - sr) ^ 2) by apply pow2_ge_0.
      assert (0 <= (n * b - si) ^ 2) by apply pow2_ge_0.
      nra.
Qed.

(** The estimate against the uniform reference, in closed form. *)
Lemma Cxy_uniform x :
  let Xs := spectrum x 1 in
  Xs <> [] ->
  Cxy_bin x (uniform_signal (length Xs)) 1 =
    if Req_dec_T (energy Xs) 0 then NaN
    else Fin ((fst (csum Xs) ^ 2 + snd (csum Xs) ^ 2) / (INR (length Xs) * energy Xs)).
Proof.
  cbv zeta. intros Hne. unfold Cxy_bin. cbv zeta.
  assert (Hn : 0 < INR (length (spectrum x 1))).
  { apply lt_0_INR. destruct (spectrum x 1); [congruence | simpl; lia]. }
  assert (Hy : welch (uniform_signal (length (spectrum x 1))) 1 = 2 * (1 / 3)).
  { rewrite welch_energy, spectrum_uniform, repeat_length.
    assert (He : forall n, energy (repeat (1, 0) n) = INR n).
    { induction n as [|n IH]; [reflexivity|].
      change (energy (repeat (1, 0) (S n))) with (1 ^ 2 + 0 ^ 2 + energy (repeat (1, 0) n)).
      rewrite IH, S_INR. ring. }
    rewrite He. field. lra. }
  rewrite Hy, welch_energy, cabs_sq, csd_uniform. cbv zeta.
  destruct (Req_dec_T (energy (spectrum x 1)) 0) as [He | He].
  - rewrite He. destruct (Req_dec_T _ 0) as [_ | H]; [reflexivity|].
    exfalso. apply H. ring.
  - destruct (Req_dec_T _ 0) as [H | _].
    + exfalso. apply He.
      apply Rmult_eq_reg_l with (2 * (1 / 3) * / INR (length (spectrum x 1))).
      * rewrite Rmult_0_r, <- H. ring.
      * apply Rmult_integral_contrapositive_currified; [lra|].
        apply Rinv_neq_0_compat. lra.
    + destruct (Req_dec_T _ 0) as [H | _]; [lra|].
      unfold Fin. f_equal. unfold cscale, cconj. simpl fst. simpl snd.
      field. split; lra.
Qed.

Lemma Cxy_uniform_le_1 x s :
  spectrum x 1 <> [] ->
  Cxy_bin x (uniform_signal (length (spectrum x 1))) 1 = Fin s -> 0 <= s <= 1.
Proof.
  intros Hne. rewrite (Cxy_uniform x Hne).
  destruct (Req_dec_T _ 0) as [|He]; [discriminate|].
  intros [= <-].
  assert (HQ := energy_nonneg (spectrum x 1)).
  assert (Hn : 0 < INR (length (spectrum x 1))).
  { apply lt_0_INR. destruct (spectrum x 1); [congruence | simpl; lia]. }
  assert (Hd : 0 < INR (length (spectrum x 1)) * energy (spectrum x 1)) by nra.
  split.
  - apply Rmult_le_pos; [nra|]. left. apply Rinv_0_lt_compat. exact Hd.
  - apply Rmult_le_reg_r with (INR (length (spectrum x 1)) * energy (spectrum x 1)); [exact Hd|].
    unfold Rdiv. rewrite Rmult_assoc, Rinv_l, Rmult_1_r, Rmult_1_l by lra.
    apply csum_norm_le.
Qed.

(** ** [pvalue] *)

Lemma ncx2_sf_decr x1 x2 nc :
  0 <= nc -> x1 <= x2 ->
  exists p1 p2,
    ncx2_sf x1 2 nc = Fin p1 /\ ncx2_sf x2 2 nc = Fin p2 /\ p2 <= p1.
Proof.
  intros Hnc H12. unfold ncx2_sf. simpl Nat.eqb. simpl Nat.div2.
  destruct (Rlt_dec nc 0) as [Hneg | _]; [lra|].
  destruct (Rlt_dec x1 0) as [H1 | H1], (Rlt_dec x2 0) as [H2 | H2];
    do 2 eexists; (split; [reflexivity | split; [reflexivity|]]).
  - lra.
  - apply ncx2_series_le_1; lra.
  - lra.
  - apply ncx2_series_decr; lra.
Qed.

Lemma ncx2_sf_0 nc : 0 <= nc -> ncx2_sf 0 2 nc = Fin 1.
Proof.
  intros Hnc. unfold ncx2_sf. simpl Nat.eqb. simpl Nat.div2.
  destruct (Rlt_dec nc 0) as [Hneg | _]; [lra|].
  destruct (Rlt_dec 0 0) as [H | _]; [lra|].
  rewrite ncx2_series_0. reflexivity.
Qed.

Lemma pvalue_eq (x : R) (N : Z) :
  (2 <= N)%Z ->
  pvalue (Fin x) N =
    ret (ncx2_sf (2 * IZR (N ^ 2) * x / IZR (N - 1)) 2 (2 / IZR (N - 1))).
Proof.
  intros HN. unfold pvalue.
  destruct (N - 1 =? 0)%Z eqn:E; [lia|]. reflexivity.
Qed.

(** C5: for a sample size [N >= 2], [pvalue] returns a number (no exception,
    no NaN) that does not increase when the score increases, and
    [pvalue(0, N)] is 1. *)
Theorem pvalue_nonincreasing (N : Z) (s1 s2 : R) :
  (2 <= N)%Z -> s1 <= s2 ->
  (exists p1 p2,
      pvalue (Fin s1) N = ret (Fin p1)
      /\ pvalue (Fin s2) N = ret (Fin p2)
      /\ p2 <= p1)
  /\ pvalue (Fin 0) N = ret (Fin 1).
Proof.
  intros HN H12.
  assert (Hd : 0 < IZR (N - 1)) by (apply IZR_lt; lia).
  assert (Hn2 : 0 < IZR (N ^ 2)) by (apply IZR_lt; nia).
  assert (Hnc : 0 <= 2 / IZR (N - 1)).
  { apply Rmult_le_pos; [lra|]. left. apply Rinv_0_lt_compat. exact Hd. }
  rewrite !pvalue_eq by exact HN. split.
  - destruct (ncx2_sf_decr (2 * IZR (N ^ 2) * s1 / IZR (N - 1))
                (2 * IZR (N ^ 2) * s2 / IZR (N - 1)) (2 / IZR (N - 1)) Hnc)
      as (p1 & p2 & E1 & E2 & Hp).
    + apply Rmult_le_compat_r; [left; apply Rinv_0_lt_compat; exact Hd|]. nra.
    + exists p1, p2. rewrite E1, E2. auto.
  - replace (2 * IZR (N ^ 2) * 0 / IZR (N - 1)) with 0 by (unfold Rdiv; ring).
    rewrite ncx2_sf_0 by exact Hnc. reflexivity.
Qed.

Lemma pvalue_nonincreasing_witness :
  (exists p1 p2,
      pvalue (Fin 0) 3 = ret (Fin p1)
      /\ pvalue (Fin 1) 3 = ret (Fin p2)
      /\ p2 <= p1)
  /\ pvalue (Fin 0) 3 = ret (Fin 1).
Proof. apply (pvalue_nonincreasing 3 0 1); [lia | lra]. Defined.

(** ** Scores lie in [[0, 1]] *)

Lemma length_segments3 (l : list R) : length (segments3 l) = (length l / 3)%nat.
Proof.
  induction l as [| | |a b c rest IH] using triple_ind; try reflexivity.
  change (length (a :: b :: c :: rest)) with (1 * 3 + length rest)%nat.
  rewrite Nat.div_add_l by lia. simpl. rewrite IH. reflexivity.
Qed.

Lemma length_spectrum x bin : length (spectrum x bin) = (length x / 3)%nat.
Proof. unfold spectrum. rewrite length_map. apply length_segments3. Qed.

Lemma Cxy_bin_uniform_bounds x s :
  Cxy_bin x (uniform_signal (length x / 3)) 1 = Fin s -> 0 <= s <= 1.
Proof.
  rewrite <- (length_spectrum x 1).
  destruct (spectrum x 1) as [|X Xs] eqn:E.
  - unfold Cxy_bin. cbv zeta. rewrite welch_energy, E. simpl energy.
    destruct (Req_dec_T _ 0) as [_ | H]; [discriminate|].
    exfalso. apply H. ring.
  - rewrite <- E. apply Cxy_uniform_le_1. rewrite E. discriminate.
Qed.

Lemma frame_periodicity_bounds v frame s p :
  frame_periodicity v frame = (Fin s, p) -> 0 <= s <= 1.
Proof.
  unfold frame_periodicity. rewrite frame_try_eq. cbv zeta.
  destruct (pvalue _ _) as [e | q]; simpl.
  - intros [= <- _]. lra.
  - intros [= H _]. apply Cxy_bin_uniform_bounds in H. exact H.
Qed.

Lemma float_gt_false_le s b : s <= b -> float_gt (Fin s) b = false.
Proof.
  intros H. unfold float_gt, Fin. destruct (Rgt_dec s b); [lra | reflexivity].
Qed.

Lemma float_gt_true s b : b < s -> float_gt (Fin s) b = true.
Proof.
  intros H. unfold float_gt, Fin. destruct (Rgt_dec s b); [reflexivity | lra].
Qed.

(** ** Unfolding the loop over the frames *)

Lemma coherence_loop_return v frame frames st :
  truncated_length v frame = 0%nat ->
  coherence_loop v (frame :: frames) st = (0, Fin 1, 0%Z).
Proof. intros H. simpl. rewrite H. reflexivity. Qed.

Lemma coherence_loop_step v frame frames st :
  truncated_length v frame <> 0%nat ->
  coherence_loop v (frame :: frames) st =
    coherence_loop v frames
      (select_best st (fst (frame_periodicity v frame))
         (snd (frame_periodicity v frame)) (truncated_length v frame)).
Proof.
  intros H. simpl. destruct (Nat.eqb_spec (truncated_length v frame) 0); [contradiction|].
  destruct (frame_periodicity v frame). reflexivity.
Qed.

(** A frame that does not beat the running best leaves it alone, once
    [valid] is set. *)
Lemma select_best_keep coh pval valid sc pv length :
  float_gt sc coh = false -> valid <> (-1)%Z ->
  select_best (coh, pval, valid) sc pv length = (coh, pval, valid).
Proof.
  intros H Hv. unfold select_best. rewrite H.
  destruct (Z.eqb_spec valid (-1)); [contradiction | reflexivity].
Qed.

Lemma select_best_first sc pv length :
  float_gt sc 0 = false ->
  select_best (0, Fin 1, (-1)%Z) sc pv length = (0, Fin 1, Z.of_nat length).
Proof. intros H. unfold select_best. rewrite H. reflexivity. Qed.

Lemma select_best_take coh pval valid s pv length :
  coh < s ->
  select_best (coh, pval, valid) (Fin s) pv length = (s, pv, Z.of_nat length).
Proof.
  intros H. unfold select_best. rewrite (float_gt_true _ _ H). simpl.
  destruct (Z.eqb_spec (Z.of_nat length) (-1)); [lia | reflexivity].
Qed.

Lemma frame_score_not_gt_1 v frame :
  float_gt (fst (frame_periodicity v frame)) 1 = false.
Proof.
  destruct (frame_periodicity v frame) as [[s|] p] eqn:E; [|reflexivity].
  apply float_gt_false_le. apply (frame_periodicity_bounds _ _ _ _ E).
Qed.

(** ** Normalizing particular codons *)

Lemma normalize_a00 (a : Z) rest :
  (0 < a)%Z ->
  normalize_codons (a :: 0 :: 0 :: rest)%Z = 1 :: 0 :: 0 :: normalize_codons rest.
Proof.
  intros Ha. assert (HR : 0 < IZR a) by (apply IZR_lt; exact Ha).
  cbn [normalize_codons].
  destruct (Z.eqb_spec a 0) as [-> | _]; [lia|]. simpl andb. cbv zeta.
  replace (IZR a + 0 * cos (2 * PI / 3) + 0 * cos (4 * PI / 3)) with (IZR a) by ring.
  replace (0 * sin (2 * PI / 3) + 0 * sin (4 * PI / 3)) with 0 by ring.
  replace (IZR a ^ 2 + 0 ^ 2) with (IZR a ^ 2) by ring.
  rewrite sqrt_pow2 by lra.
  destruct (Req_dec_T (IZR a) 0) as [H | _]; [lra|].
  simpl app. f_equal; [field; lra|]. f_equal; [field; lra|]. f_equal. field; lra.
Qed.

Lemma normalize_010 rest :
  normalize_codons (0 :: 1 :: 0 :: rest)%Z = 0 :: 1 :: 0 :: normalize_codons rest.
Proof.
  cbn [normalize_codons]. simpl andb. cbv zeta.
  rewrite cos_2PI_3, cos_4PI_3, sin_2PI_3, sin_4PI_3.
  replace ((0 + 1 * - (1 / 2) + 0 * - (1 / 2)) ^ 2
           + (1 * (sqrt 3 / 2) + 0 * - (sqrt 3 / 2)) ^ 2)
    with (1 / 4 + sqrt 3 * sqrt 3 / 4) by field.
  rewrite sqrt3_sq. replace (1 / 4 + 3 / 4) with 1 by field. rewrite sqrt_1.
  destruct (Req_dec_T 1 0) as [H | _]; [lra|].
  simpl app. f_equal; [field|]. f_equal; [field|]. f_equal. field.
Qed.

Lemma rfft3_100 : rfft3 (detrend_constant (1, 0, 0)) 1 = (1, 0).
Proof. rewrite rfft3_detrend. f_equal; field. Qed.

Lemma rfft3_010 : rfft3 (detrend_constant (0, 1, 0)) 1 = (- (1 / 2), - (sqrt 3 / 2)).
Proof. rewrite rfft3_detrend. f_equal; field. Qed.

Ltac frame_length := rewrite truncated_length_eq; reflexivity.

(** ** Three perfect codons: [3,0,0, 2,0,0, 1,0,0] *)




Lemma coherence_loop_frame_only_step v frame frames st :
  coherence_loop_frame_only v (frame :: frames) st =
    coherence_loop_frame_only v frames
      (if (truncated_length v frame =? 0)%nat
       then select_best st (Fin 0) (Fin 1) (truncated_length v frame)
       else select_best st (fst (frame_periodicity v frame))
              (snd (frame_periodicity v frame)) (truncated_length v frame)).
Proof.
  simpl. destruct (truncated_length v frame =? 0)%nat; [reflexivity|].
  destruct (frame_periodicity v frame). reflexivity.
Qed.

(** Line 153 in general: as soon as one frame retains no codon, the whole
    result is [(0.0, 1.0, 0)]. *)
Lemma coherence_loop_empty_frame v frames st :
  (exists frame, In frame frames /\ truncated_length v frame = 0%nat) ->
  coherence_loop v frames st = (0, Fin 1, 0%Z).
Proof.
  revert st. induction frames as [|frame frames IH]; intros st (g & Hin & Hg).
  - destruct Hin.
  - destruct (Nat.eq_dec (truncated_length v frame) 0) as [E | E].
    + apply coherence_loop_return. exact E.
    + rewrite coherence_loop_step by exact E. apply IH.
      destruct Hin as [-> | Hin]; [contradiction|]. exists g. auto.
Qed.

Lemma coherence_empty_frame v :
  (exists frame, In frame [0; 1; 2]%nat /\ truncated_length v frame = 0%nat) ->
  coherence v = (0, Fin 1, 0%Z).
Proof. apply coherence_loop_empty_frame. Qed.

(** When every frame retains a codon the loop and its per-frame reading
    agree: they differ by the early return only. *)
Lemma coherence_loop_agree v frames st :
  (forall frame, In frame frames -> truncated_length v frame <> 0%nat) ->
  coherence_loop v frames st = coherence_loop_frame_only v frames st.
Proof.
  revert st. induction frames as [|frame frames IH]; intros st H; [reflexivity|].
  assert (E : truncated_length v frame <> 0%nat) by (apply H; simpl; auto).
  rewrite coherence_loop_step by exact E.
  rewrite coherence_loop_frame_only_step.
  destruct (Nat.eqb_spec (truncated_length v frame) 0); [contradiction|].
  apply IH. intros g Hg. apply H. simpl. auto.
Qed.

(** ** Two codons out of phase: [1,0,0, 0,1,0] *)

Lemma Cxy_100_010 :
  Cxy_bin [1; 0; 0; 0; 1; 0] (uniform_signal 2) 1 = Fin (1 / 4).
Proof.
  pose proof (Cxy_uniform [1; 0; 0; 0; 1; 0]) as H. cbv zeta in H.
  assert (Hs : spectrum [1; 0; 0; 0; 1; 0] 1 = [(1, 0); (- (1 / 2), - (sqrt 3 / 2))]).
  { rewrite !spectrum_cons, rfft3_100, rfft3_010. reflexivity. }
  rewrite Hs in H. change (length [(1, 0); (- (1 / 2), - (sqrt 3 / 2))]) with 2%nat in H.
  rewrite H by discriminate. clear H.
  assert (He : energy [(1, 0); (- (1 / 2), - (sqrt 3 / 2))] = 2).
  { simpl. replace (1 * (1 * 1) + 0 * (0 * 1)
                    + (- (1 / 2) * (- (1 / 2) * 1)
                       + - (sqrt 3 / 2) * (- (sqrt 3 / 2) * 1) + 0))
      with (5 / 4 + sqrt 3 * sqrt 3 / 4) by field.
    rewrite sqrt3_sq. field. }
  rewrite He. destruct (Req_dec_T 2 0) as [H | _]; [lra|].
  unfold Fin. f_equal. simpl.
  replace ((1 + (- (1 / 2) + 0)) * ((1 + (- (1 / 2) + 0)) * 1)
           + (0 + (- (sqrt 3 / 2) + 0)) * ((0 + (- (sqrt 3 / 2) + 0)) * 1))
    with (1 / 4 + sqrt 3 * sqrt 3 / 4) by field.
  rewrite sqrt3_sq. field.
Qed.

Lemma frame0_cov_100_010 :
  frame_periodicity cov_100_010 0 = (Fin (1 / 4), ncx2_sf 2 2 2).
Proof.
  assert (Hlen : truncated_length cov_100_010 0 = 6%nat) by frame_length.
  assert (Hsig : frame_signal cov_100_010 0 = [1; 0; 0; 0; 1; 0]).
  { unfold frame_signal, cov_100_010. simpl skipn.
    rewrite normalize_a00 by lia. rewrite normalize_010. reflexivity. }
  unfold frame_periodicity. rewrite frame_try_eq. cbv zeta.
  rewrite Hlen, Hsig. simpl firstn.
  change (@length R _ / 3)%nat with 2%nat.
  change (Z.of_nat (6 / 3)) with 2%Z.
  rewrite Cxy_100_010, pvalue_eq by lia. unfold bind, ret.
  change (2 ^ 2)%Z with 4%Z. change (2 - 1)%Z with 1%Z.
  replace (2 * 4 * (1 / 4) / 1) with 2 by field. replace (2 / 1) with 2 by field.
  reflexivity.
Qed.

(** C1: on [1,0,0, 0,1,0] frame 0 retains two codons and scores 1/4, frame 1
    is empty, and [coherence] returns [(0.0, 1.0, 0)] for the whole array;
    had the empty frame counted for itself only, the result would be frame
    0's [(1/4, p, 6)]. *)
Theorem coherence_empty_frame_returns :
  truncated_length cov_100_010 0 = 6%nat
  /\ frame_periodicity cov_100_010 0 = (Fin (1 / 4), ncx2_sf 2 2 2)
  /\ truncated_length cov_100_010 1 = 0%nat
  /\ coherence cov_100_010 = (0, Fin 1, 0%Z)
  /\ coherence_frame_only cov_100_010 = (1 / 4, ncx2_sf 2 2 2, 6%Z).
Proof.
  assert (H0 : truncated_length cov_100_010 0 = 6%nat) by frame_length.
  assert (H1 : truncated_length cov_100_010 1 = 0%nat) by frame_length.
  assert (H2 : truncated_length cov_100_010 2 = 3%nat) by frame_length.
  repeat split; try assumption.
  - apply frame0_cov_100_010.
  - unfold coherence. rewrite coherence_loop_step by (rewrite H0; discriminate).
    apply coherence_loop_return. exact H1.
  - unfold coherence_frame_only.
    rewrite !coherence_loop_frame_only_step, H0, H1, H2. simpl Nat.eqb. cbv iota.
    rewrite frame0_cov_100_010. simpl fst. simpl snd.
    rewrite select_best_take by lra.
    rewrite select_best_keep by (try apply float_gt_false_le; try lra; lia).
    rewrite (frame_periodicity_single _ _ H2). simpl fst. simpl snd.
    rewrite select_best_keep by (try apply float_gt_false_le; try lra; lia).
    reflexivity.
Qed.

(** ** One codon: [1,0,0] *)

Lemma coherence_one_codon : coherence [1; 0; 0]%Z = (0, Fin 1, 0%Z).
Proof.
  assert (H0 : truncated_length [1; 0; 0]%Z 0 = 3%nat) by frame_length.
  assert (H1 : truncated_length [1; 0; 0]%Z 1 = 0%nat) by frame_length.
  unfold coherence. rewrite coherence_loop_step by (rewrite H0; discriminate).
  apply coherence_loop_return. exact H1.
Qed.

(** C2, as stated, fails: [coherence([1,0,0])] has neither score 1.0 nor
    valid-codons 3. *)
Lemma coherence_one_codon_not_perfect :
  ~ (coh_of (coherence [1; 0; 0]%Z) = 1 /\ valid_of (coherence [1; 0; 0]%Z) = 3%Z).
Proof.
  rewrite coherence_one_codon. unfold coh_of, valid_of. simpl. intros [H _]. lra.
Qed.

(** C2, amended: [coherence([1,0,0])] has score 0.0 and p-value 1.0.  Frame 0
    keeps the one codon (3 positions), so the sample size handed to [pvalue]
    is 1, the call raises, and the frame falls back to [(0.0, 1.0)]. *)
Theorem coherence_one_codon_score :
  coh_of (coherence [1; 0; 0]%Z) = 0
  /\ pval_of (coherence [1; 0; 0]%Z) = Fin 1
  /\ truncated_length [1; 0; 0]%Z 0 = 3%nat
  /\ frame_try [1; 0; 0]%Z 0 = raise ZeroDivisionError
  /\ frame_periodicity [1; 0; 0]%Z 0 = (Fin 0, Fin 1).
Proof.
  assert (H0 : truncated_length [1; 0; 0]%Z 0 = 3%nat) by frame_length.
  rewrite coherence_one_codon. repeat split; try reflexivity; try assumption.
  - apply frame_try_single. exact H0.
  - apply frame_periodicity_single. exact H0.
Qed.

(** ** No positive score: [2,1,0] *)

(** What lines 168-173 do when no frame returns early and none scores above
    zero: [valid] is frame 0's. *)
Lemma coherence_valid_first_frame v :
  (forall frame, In frame [0; 1; 2]%nat -> truncated_length v frame <> 0%nat) ->
  (forall frame, In frame [0; 1; 2]%nat ->
                 float_gt (fst (frame_periodicity v frame)) 0 = false) ->
  coherence v = (0, Fin 1, Z.of_nat (truncated_length v 0)).
Proof.
  intros Hlen Hsc. unfold coherence.
  rewrite coherence_loop_step by (apply Hlen; simpl; auto).
  rewrite select_best_first by (apply Hsc; simpl; auto).
  rewrite coherence_loop_step by (apply Hlen; simpl; auto).
  rewrite select_best_keep by (try (apply Hsc; simpl; auto); lia).
  rewrite coherence_loop_step by (apply Hlen; simpl; auto).
  rewrite select_best_keep by (try (apply Hsc; simpl; auto); lia).
  reflexivity.
Qed.

(** C6: on [2,1,0] no frame scores above zero and frame 0 has 3 valid
    positions, yet [coherence] reports 0: frame 1 is empty and line 153
    returns [(0.0, 1.0, 0)].  With the empty frame counted for itself only,
    the value would be frame 0's. *)
Theorem coherence_valid_not_first_frame :
  truncated_length [2; 1; 0]%Z 0 = 3%nat
  /\ frame_periodicity [2; 1; 0]%Z 0 = (Fin 0, Fin 1)
  /\ truncated_length [2; 1; 0]%Z 1 = 0%nat
  /\ truncated_length [2; 1; 0]%Z 2 = 0%nat
  /\ coherence [2; 1; 0]%Z = (0, Fin 1, 0%Z)
  /\ coherence_frame_only [2; 1; 0]%Z = (0, Fin 1, 3%Z).
Proof.
  assert (H0 : truncated_length [2; 1; 0]%Z 0 = 3%nat) by frame_length.
  assert (H1 : truncated_length [2; 1; 0]%Z 1 = 0%nat) by frame_length.
  assert (H2 : truncated_length [2; 1; 0]%Z 2 = 0%nat) by frame_length.
  repeat split; try assumption.
  - apply frame_periodicity_single. exact H0.
  - unfold coherence. rewrite coherence_loop_step by (rewrite H0; discriminate).
    apply coherence_loop_return. exact H1.
  - unfold coherence_frame_only.
    rewrite !coherence_loop_frame_only_step, H0, H1, H2. simpl Nat.eqb. cbv iota.
    rewrite (frame_periodicity_single _ _ H0). simpl fst. simpl snd.
    rewrite select_best_first by (apply float_gt_false_le; lra).
    rewrite !select_best_keep by (try apply float_gt_false_le; try lra; lia).
    reflexivity.
Qed.

(** ** Two perfect codons: [1,0,0, 1,0,0] *)

Lemma Cxy_two_perfect :
  Cxy_bin [1; 0; 0; 1; 0; 0] (uniform_signal 2) 1 = Fin 1.
Proof.
  pose proof (Cxy_uniform [1; 0; 0; 1; 0; 0]) as H. cbv zeta in H.
  assert (Hs : spectrum [1; 0; 0; 1; 0; 0] 1 = [(1, 0); (1, 0)]).
  { rewrite !spectrum_cons, rfft3_100. reflexivity. }
  rewrite Hs in H. change (length [(1, 0); (1, 0)]) with 2%nat in H.
  rewrite H by discriminate. clear H.
  assert (He : energy [(1, 0); (1, 0)] = 2) by (simpl; ring).
  rewrite He. destruct (Req_dec_T 2 0) as [H | _]; [lra|].
  unfold Fin. f_equal. simpl. field.
Qed.

Lemma frame0_cov_100_100 :
  frame_periodicity cov_100_100 0 = (Fin 1, ncx2_sf 8 2 2).
Proof.
  assert (Hlen : truncated_length cov_100_100 0 = 6%nat) by frame_length.
  assert (Hsig : frame_signal cov_100_100 0 = [1; 0; 0; 1; 0; 0]).
  { unfold frame_signal, cov_100_100. simpl skipn.
    rewrite !normalize_a00 by lia. reflexivity. }
  unfold frame_periodicity. rewrite frame_try_eq. cbv zeta.
  rewrite Hlen, Hsig. simpl firstn.
  change (@length R _ / 3)%nat with 2%nat.
  change (Z.of_nat (6 / 3)) with 2%Z.
  rewrite Cxy_two_perfect, pvalue_eq by lia. unfold bind, ret.
  change (2 ^ 2)%Z with 4%Z. change (2 - 1)%Z with 1%Z.
  replace (2 * 4 * 1 / 1) with 8 by field. replace (2 / 1) with 2 by field.
  reflexivity.
Qed.

Lemma coherence_cov_100_100 : coherence cov_100_100 = (1, ncx2_sf 8 2 2, 6%Z).
Proof.
  assert (H0 : truncated_length cov_100_100 0 = 6%nat) by frame_length.
  assert (H1 : truncated_length cov_100_100 1 = 3%nat) by frame_length.
  assert (H2 : truncated_length cov_100_100 2 = 3%nat) by frame_length.
  unfold coherence.
  rewrite coherence_loop_step by (rewrite H0; discriminate).
  rewrite frame0_cov_100_100, H0. simpl fst. simpl snd.
  rewrite select_best_take by lra.
  rewrite coherence_loop_step by (rewrite H1; discriminate).
  rewrite select_best_keep by (try apply frame_score_not_gt_1; lia).
  rewrite coherence_loop_step by (rewrite H2; discriminate).
  rewrite select_best_keep by (try apply frame_score_not_gt_1; lia).
  reflexivity.
Qed.

(** C9, as stated, fails: on [1,0,0, 1,0,0] the loop reaches frame 1 and calls
    [pvalue] with [N = 1]; the call raises a division by zero, which the
    [except] swallows, and [coherence] returns a value. *)
Lemma coherence_reaches_singular_pvalue :
  calls_pvalue_with cov_100_100 1 1
  /\ frame_try cov_100_100 1 = raise ZeroDivisionError
  /\ frame_periodicity cov_100_100 1 = (Fin 0, Fin 1)
  /\ coherence cov_100_100 = (1, ncx2_sf 8 2 2, 6%Z).
Proof.
  assert (H0 : truncated_length cov_100_100 0 = 6%nat) by frame_length.
  assert (H1 : truncated_length cov_100_100 1 = 3%nat) by frame_length.
  split; [|split; [|split]].
  - unfold calls_pvalue_with. split; [simpl; auto|]. split.
    + intros g Hg. assert (Hc : g = 0%nat \/ g = 1%nat) by lia.
      destruct Hc as [-> | ->]; [rewrite H0 | rewrite H1]; discriminate.
    + rewrite H1. reflexivity.
  - apply frame_try_single. exact H1.
  - apply frame_periodicity_single. exact H1.
  - apply coherence_cov_100_100.
Qed.

(** C9, amended: [pvalue] with [N = 1] raises [ZeroDivisionError] (the
    quotient [2.0 / (N - 1)]; there is no check of the sample size), and
    [coherence] does get there: a frame that retains exactly one codon calls
    [pvalue] with [N = 1], catches the error and takes score 0.0 and p-value
    1.0 for that frame. *)
Theorem pvalue_singular_caught (x : pyfloat) (v : list Z) (frame : nat) :
  truncated_length v frame = 3%nat ->
  pvalue x 1 = raise ZeroDivisionError
  /\ Z.of_nat (truncated_length v frame / 3) = 1%Z
  /\ frame_try v frame = raise ZeroDivisionError
  /\ frame_periodicity v frame = (Fin 0, Fin 1).
Proof.
  intros H. split; [reflexivity|]. split; [rewrite H; reflexivity|]. split.
  - apply frame_try_single. exact H.
  - apply frame_periodicity_single. exact H.
Qed.

Lemma pvalue_singular_caught_witness :
  truncated_length cov_100_100 1 = 3%nat
  /\ pvalue (Fin 1) 1 = raise ZeroDivisionError
  /\ Z.of_nat (truncated_length cov_100_100 1 / 3) = 1%Z
  /\ frame_try cov_100_100 1 = raise ZeroDivisionError
  /\ frame_periodicity cov_100_100 1 = (Fin 0, Fin 1).
Proof.
  assert (H1 : truncated_length cov_100_100 1 = 3%nat).
  { rewrite truncated_length_eq. reflexivity. }
  split; [exact H1|]. apply (pvalue_singular_caught (Fin 1) cov_100_100 1 H1).
Defined.

(** ** The valid-codons value *)

Lemma select_best_valid v st sc pv frame :
  (frame < 3)%nat ->
  valid_of st = (-1)%Z \/ frame_length_of v (valid_of st) ->
  frame_length_of v (valid_of (select_best st sc pv (truncated_length v frame))).
Proof.
  intros Hf Hst. destruct st as [[coh pval] valid]. unfold valid_of in *.
  simpl in Hst. unfold select_best.
  destruct (float_gt sc coh); simpl.
  - destruct (Z.eqb_spec (Z.of_nat (truncated_length v frame)) (-1)); exists frame; auto.
  - destruct (Z.eqb_spec valid (-1)) as [E | E].
    + exists frame. auto.
    + destruct Hst as [H | H]; [contradiction | exact H].
Qed.

Lemma coherence_loop_valid v frames st :
  Forall (fun frame => (frame < 3)%nat) frames ->
  frame_length_of v (valid_of st) ->
  frame_length_of v (valid_of (coherence_loop v frames st)).
Proof.
  intros Hfr. revert st. induction Hfr as [|frame frames Hf _ IH]; intros st Hst.
  - exact Hst.
  - destruct (Nat.eq_dec (truncated_length v frame) 0) as [E | E].
    + rewrite coherence_loop_return by exact E.
      exists frame. split; [exact Hf|]. rewrite E. reflexivity.
    + rewrite coherence_loop_step by exact E. apply IH.
      apply select_best_valid; auto.
Qed.

Lemma coherence_valid_frame_length v : frame_length_of v (valid_of (coherence v)).
Proof.
  unfold coherence.
  destruct (Nat.eq_dec (truncated_length v 0) 0) as [E | E].
  - rewrite coherence_loop_return by exact E.
    exists 0%nat. split; [lia|]. rewrite E. reflexivity.
  - rewrite coherence_loop_step by exact E. apply coherence_loop_valid.
    + repeat constructor.
    + apply select_best_valid; [lia|]. left. reflexivity.
Qed.

(** The loop around open frame scores unfolds like the exact one, which is
    its instance at [frame_periodicity]. *)
Lemma coherence_loop_with_return periodicity v frame frames st :
  truncated_length v frame = 0%nat ->
  coherence_loop_with periodicity v (frame :: frames) st = (0, Fin 1, 0%Z).
Proof. intros H. simpl. rewrite H. reflexivity. Qed.

Lemma coherence_loop_with_step periodicity v frame frames st :
  truncated_length v frame <> 0%nat ->
  coherence_loop_with periodicity v (frame :: frames) st =
    coherence_loop_with periodicity v frames
      (select_best st (fst (periodicity v frame))
         (snd (periodicity v frame)) (truncated_length v frame)).
Proof.
  intros H. simpl.
  destruct (Nat.eqb_spec (truncated_length v frame) 0); [contradiction|].
  destruct (periodicity v frame). reflexivity.
Qed.

Lemma coherence_loop_with_exact v frames st :
  coherence_loop v frames st = coherence_loop_with frame_periodicity v frames st.
Proof.
  revert st. induction frames as [|frame frames IH]; intros st; [reflexivity|].
  simpl. destruct (truncated_length v frame =? 0)%nat; [reflexivity|].
  destruct (frame_periodicity v frame). apply IH.
Qed.

Lemma coherence_with_exact v : coherence v = coherence_with frame_periodicity v.
Proof. apply coherence_loop_with_exact. Qed.

Lemma coherence_loop_with_valid periodicity v frames st :
  Forall (fun frame => (frame < 3)%nat) frames ->
  frame_length_of v (valid_of st) ->
  frame_length_of v (valid_of (coherence_loop_with periodicity v frames st)).
Proof.
  intros Hfr. revert st. induction Hfr as [|frame frames Hf _ IH]; intros st Hst.
  - exact Hst.
  - destruct (Nat.eq_dec (truncated_length v frame) 0) as [E | E].
    + rewrite coherence_loop_with_return by exact E.
      exists frame. split; [exact Hf|]. rewrite E. reflexivity.
    + rewrite coherence_loop_with_step by exact E. apply IH.
      apply select_best_valid; auto.
Qed.

Lemma coherence_with_valid_frame_length periodicity v :
  frame_length_of v (valid_of (coherence_with periodicity v)).
Proof.
  unfold coherence_with.
  destruct (Nat.eq_dec (truncated_length v 0) 0) as [E | E].
  - rewrite coherence_loop_with_return by exact E.
    exists 0%nat. split; [lia|]. rewrite E. reflexivity.
  - rewrite coherence_loop_with_step by exact E. apply coherence_loop_with_valid.
    + repeat constructor.
    + apply select_best_valid; [lia|]. left. reflexivity.
Qed.

(** The three frames of [3,0,0, 2,0,0, 1,0,0] hold 9, 6 and 6 positions. *)
Lemma cov_321_frame_lengths z :
  frame_length_of cov_321 z -> z = 9%Z \/ z = 6%Z.
Proof.
  intros (frame & Hf & ->).
  destruct frame as [|[|[|frame]]]; [left | right | right | lia];
    rewrite truncated_length_eq; reflexivity.
Qed.

(** C10: whatever the frame scores are, the valid-codons value of [coherence]
    is a non-negative multiple of 3, namely three times the number of codons
    retained in one of the three frames: it counts positions.  This holds of
    the exact scores in particular.  The frames of [3,0,0, 2,0,0, 1,0,0]
    retain 3, 2 and 2 codons, and the value is 9 or 6 there. *)
Theorem coherence_valid_counts_positions
  (periodicity : list Z -> nat -> pyfloat * pyfloat) (v : list Z) :
  let valid := valid_of (coherence_with periodicity v) in
  ((0 <= valid)%Z
   /\ (3 | valid)%Z
   /\ exists frame,
       (frame < 3)%nat
       /\ valid = (3 * Z.of_nat (retained_codons (skipn frame v)))%Z)
  /\ coherence v = coherence_with frame_periodicity v
  /\ (map (fun frame => retained_codons (skipn frame cov_321)) [0; 1; 2]%nat
      = [3; 2; 2]%nat
      /\ (valid_of (coherence_with periodicity cov_321) = 9%Z
          \/ valid_of (coherence_with periodicity cov_321) = 6%Z)).
Proof.
  cbv zeta. split; [|split].
  - destruct (coherence_with_valid_frame_length periodicity v) as (frame & Hf & E).
    rewrite truncated_length_eq in E. rewrite E. split; [lia|]. split.
    + exists (Z.of_nat (retained_codons (skipn frame v))). lia.
    + exists frame. split; [exact Hf | lia].
  - apply coherence_with_exact.
  - split; [reflexivity|].
    apply cov_321_frame_lengths, coherence_with_valid_frame_length.
Qed.

(** ** The translating / nontranslating decision *)

Lemma Rgeb_true a b : Rgeb a b = true <-> a >= b.
Proof.
  unfold Rgeb. destruct (Rge_dec a b); split; intros H;
    try reflexivity; try assumption; try discriminate; contradiction.
Qed.

Lemma gate_translating th coh valid_codons codon_coverage ratio density :
  gate th coh valid_codons codon_coverage ratio density = translating <->
  coh >= phase_score_cutoff th
  /\ IZR valid_codons >= min_valid_codons th
  /\ Forall (fun c => IZR c >= min_reads_per_codon th) codon_coverage
  /\ ratio >= min_valid_codons_ratio th
  /\ density >= min_density_over_orf th.
Proof.
  unfold gate.
  rewrite <- !Rgeb_true.
  assert (HF : Forall (fun c => IZR c >= min_reads_per_codon th) codon_coverage
               <-> forallb (fun c => Rgeb (IZR c) (min_reads_per_codon th))
                     codon_coverage = true).
  { rewrite forallb_forall, Forall_forall.
    split; intros H c Hc; apply Rgeb_true, H, Hc. }
  rewrite HF.
  destruct (Rgeb coh _), (Rgeb (IZR valid_codons) _), (forallb _ _),
    (Rgeb ratio _), (Rgeb density _); simpl;
    split; try (intros; discriminate); try (intros; tauto);
    intros (? & ? & ? & ? & ?); discriminate.
Qed.


Section ScorerProperties.

Variable coherence2 : list Z -> R * Z.
Variable collapse : list Z -> list Z.

(** X9: A coverage shorter than one codon has [n_codons = 0], and the ratio
    of line 262 raises ZeroDivisionError: no row is produced. *)
Lemma score_orf_short th cov :
  (length cov < 3)%nat ->
  score_orf coherence2 collapse th cov = raise ZeroDivisionError.
Proof.
  intros H. unfold score_orf. destruct (coherence2 cov) as [coh valid].
  rewrite Nat.div_small by exact H. reflexivity.
Qed.


End ScorerProperties.


(** ** The scenario of three perfect codons under the default thresholds *)


















(** ** The kernel of [integral_p3] in exact arithmetic *)









(** ** The phase-vector density *)

Module PhaseVectorProperties.

Import PhaseVector.
Local Open Scope float_scope.

(** A difference [a - a] is a zero or NaN, and so is its product with
    anything: the midpoint rule is a quadrature of the kind
    [zero_width_quad] describes. *)
Lemma sub_diag_zero_or_nan (a : float) :
  (exists s, Prim2SF (a - a) = S754_zero s) \/ Prim2SF (a - a) = S754_nan.
Proof.
  rewrite sub_spec. destruct (Prim2SF a) as [s | s | | s m e].
  - left. destruct s; eexists; reflexivity.
  - right. destruct s; reflexivity.
  - right. reflexivity.
  - left. unfold SF64sub, SFsub. rewrite Z.sub_diag. eexists. reflexivity.
Qed.

Lemma mul_zero_or_nan (z y : float) :
  (exists s, Prim2SF z = S754_zero s) \/ Prim2SF z = S754_nan ->
  (exists s, Prim2SF (z * y) = S754_zero s) \/ Prim2SF (z * y) = S754_nan.
Proof.
  intros H. rewrite mul_spec. destruct H as [[s ->] | ->].
  - destruct (Prim2SF y) as [s' | s' | | s' m e]; simpl;
      try (left; eexists; reflexivity); right; reflexivity.
  - right. reflexivity.
Qed.

Lemma zero_or_nan_not_positive (r : float) :
  (exists s, Prim2SF r = S754_zero s) \/ Prim2SF r = S754_nan ->
  finite_positive r = false.
Proof.
  intros H. unfold finite_positive. rewrite ltb_spec.
  change (Prim2SF 0) with (S754_zero false).
  destruct H as [[s ->] | ->]; reflexivity.
Qed.

Lemma midpoint_rule_zero_width : zero_width_quad midpoint_rule.
Proof.
  intros f a. unfold midpoint_rule.
  apply zero_or_nan_not_positive, mul_zero_or_nan, sub_diag_zero_or_nan.
Qed.







(** C8: for [k = 2] and a point outside [[0, 4]] the square root of a
    negative product is NaN, and NaN times the mask [False] is NaN: the
    density is NaN at 5 and at -1, not 0 (at 2, inside, it is the closed
    form; at the ends 0 and 4 it is infinite). *)
Theorem phase_vector_pdf_k2_outside
  (quad : (float -> float) -> float -> float -> float)
  (ncx2_pdf : float -> float -> float -> float)
  (jv : float -> float -> float) (np_exp : float -> float)
  (scipy_form : bool) :
  phase_vector_pdf quad ncx2_pdf jv np_exp [5; -1] 2 scipy_form
  = ret [nan; nan]
  /\ phase_vector_pdf quad ncx2_pdf jv np_exp [2; 0; 4] 2 scipy_form
     = ret [1 / np_pi * (1 / PrimFloat.sqrt (2 * (4 - 2))); infinity; infinity].
Proof. split; reflexivity. Qed.

End PhaseVectorProperties.

(** * Further properties *)

(** ** Ranges of the results *)

Lemma ncx2_series_nonneg x m nc :
  0 <= x -> 0 <= nc -> 0 <= series_sum (ncx2_term x (S m) nc).
Proof.
  intros Hx Hnc.
  apply Rle_cv_lim with (Un := fun _ : nat => 0)
                        (Vn := fun N => sum_f_R0 (ncx2_term x (S m) nc) N).
  - intro n. apply cond_pos_sum. intro i. apply ncx2_term_bounds; assumption.
  - intros eps Heps. exists 0%nat. intros n _.
    unfold R_dist. rewrite Rminus_diag, Rabs_R0. exact Heps.
  - apply ncx2_term_cv; assumption.
Qed.

Lemma ncx2_sf_range x nc :
  0 <= nc -> exists p, ncx2_sf x 2 nc = Fin p /\ 0 <= p <= 1 /\ (x <= 0 -> p = 1).
Proof.
  intros Hnc. unfold ncx2_sf. simpl Nat.eqb. simpl Nat.div2.
  destruct (Rlt_dec nc 0) as [Hneg | _]; [lra|].
  destruct (Rlt_dec x 0) as [Hx | Hx].
  - exists 1. split; [reflexivity|]. split; [lra | reflexivity].
  - eexists. split; [reflexivity|]. split; [split|].
    + apply ncx2_series_nonneg; lra.
    + apply ncx2_series_le_1; lra.
    + intros H0. assert (x = 0) by lra. subst x. apply ncx2_series_0.
Qed.

Lemma pvalue_in_range (s : R) (N : Z) :
  (2 <= N)%Z ->
  exists p, pvalue (Fin s) N = ret (Fin p) /\ 0 <= p <= 1 /\ (s <= 0 -> p = 1).
Proof.
  intros HN. rewrite pvalue_eq by exact HN.
  assert (Hd : 0 < IZR (N - 1)) by (apply IZR_lt; lia).
  assert (Hn2 : 0 < IZR (N ^ 2)) by (apply IZR_lt, Z.pow_pos_nonneg; lia).
  assert (Hnc : 0 <= 2 / IZR (N - 1)).
  { apply Rmult_le_pos; [lra|]. left. apply Rinv_0_lt_compat. exact Hd. }
  destruct (ncx2_sf_range (2 * IZR (N ^ 2) * s / IZR (N - 1)) (2 / IZR (N - 1)) Hnc)
    as (p & E & Hp & H0).
  exists p. rewrite E. split; [reflexivity|]. split; [exact Hp|].
  intros Hs. apply H0.
  assert (Hi : 0 < / IZR (N - 1)) by (apply Rinv_0_lt_compat; exact Hd).
  assert (Hk : 0 < 2 * IZR (N ^ 2) * / IZR (N - 1)).
  { apply Rmult_lt_0_compat; [lra | exact Hi]. }
  replace (2 * IZR (N ^ 2) * s / IZR (N - 1))
    with (2 * IZR (N ^ 2) * / IZR (N - 1) * s) by (unfold Rdiv; ring).
  nra.
Qed.

(** X7: For a sample size N >= 2 and any score, [pvalue] returns a number in
    [[0, 1]], equal to 1 when the score is at most 0. *)
Theorem pvalue_range (s : R) (N : Z) :
  (2 <= N)%Z ->
  exists p, pvalue (Fin s) N = ret (Fin p) /\ 0 <= p <= 1 /\ (s <= 0 -> p = 1).
Proof. apply pvalue_in_range. Qed.

Lemma pvalue_range_witness :
  exists p, pvalue (Fin (1 / 2)) 4 = ret (Fin p) /\ 0 <= p <= 1 /\ (1 / 2 <= 0 -> p = 1).
Proof. apply (pvalue_range (1 / 2) 4). lia. Defined.

(** The score and the p-value of an evaluated frame: a score that is a
    number lies in [[0, 1]] and comes with a p-value in [[0, 1]]. *)
Lemma frame_periodicity_range v frame s pv :
  truncated_length v frame <> 0%nat ->
  frame_periodicity v frame = (Fin s, pv) ->
  0 <= s <= 1 /\ exists p, pv = Fin p /\ 0 <= p <= 1.
Proof.
  intros Hlen E. split; [apply (frame_periodicity_bounds _ _ _ _ E)|].
  revert E. unfold frame_periodicity. rewrite frame_try_eq. cbv zeta.
  set (c := Cxy_bin _ _ 1). set (N := Z.of_nat (truncated_length v frame / 3)).
  assert (HN : (1 <= N)%Z).
  { unfold N. rewrite truncated_length_eq in *.
    rewrite (Nat.mul_comm 3), Nat.div_mul by lia. lia. }
  destruct (Z.eq_dec N 1) as [E1 | E1].
  - rewrite E1, pvalue_one. simpl. intros [= <- <-].
    exists 1. split; [reflexivity | lra].
  - destruct c as [s'|].
    + destruct (pvalue_in_range s' N ltac:(lia)) as (p & Ep & Hp & _).
      unfold Fin in Ep. rewrite Ep. simpl. intros [= <- <-].
      exists p. auto.
    + unfold pvalue. destruct (N - 1 =? 0)%Z eqn:E0; [lia|]. simpl.
      intros [= ].
Qed.

(** ** What [coherence] returns, whatever the frame scores *)

Lemma retained_codons_le (l : list Z) : (3 * retained_codons l <= length l)%nat.
Proof.
  induction l as [| | |v0 v1 v2 rest IH] using triple_ind; simpl; try lia.
  destruct ((v0 =? v1) && (v1 =? v2) && (v2 =? 0))%Z; simpl; lia.
Qed.

Lemma truncated_length_le v frame : (truncated_length v frame <= length v)%nat.
Proof.
  rewrite truncated_length_eq.
  pose proof (retained_codons_le (skipn frame v)) as H.
  rewrite length_skipn in H. lia.
Qed.

Lemma select_best_from_a_frame periodicity v frame st :
  (frame < 3)%nat ->
  from_a_frame periodicity v st ->
  from_a_frame periodicity v
    (select_best st (fst (periodicity v frame)) (snd (periodicity v frame))
       (truncated_length v frame)).
Proof.
  intros Hf Hst. destruct st as [[coh pval] valid].
  assert (Hc : 0 <= coh /\ valid <> (-1)%Z).
  { unfold from_a_frame, coh_of, pval_of, valid_of in Hst. simpl in Hst.
    destruct Hst as [(-> & _ & [-> | ->]) | (Hpos & g & _ & _ & ->)];
      split; lra || lia. }
  destruct Hc as [Hc Hv]. unfold select_best.
  destruct (periodicity v frame) as [sc pv] eqn:E. simpl fst. simpl snd.
  destruct sc as [s|]; cbv beta iota zeta delta [float_gt].
  - destruct (Rgt_dec s coh) as [Hgt | Hle]; cbv beta iota zeta.
    + destruct (Z.eqb_spec (Z.of_nat (truncated_length v frame)) (-1)); [lia|].
      right. unfold coh_of, pval_of, valid_of. simpl. split; [lra|].
      exists frame. auto.
    + rewrite (proj2 (Z.eqb_neq valid (-1)) Hv). exact Hst.
  - rewrite (proj2 (Z.eqb_neq valid (-1)) Hv). exact Hst.
Qed.

Lemma coherence_loop_with_from_a_frame periodicity v frames st :
  Forall (fun frame => (frame < 3)%nat) frames ->
  from_a_frame periodicity v st ->
  from_a_frame periodicity v (coherence_loop_with periodicity v frames st).
Proof.
  intros Hfr. revert st. induction Hfr as [|frame frames Hf _ IH]; intros st Hst.
  - exact Hst.
  - destruct (Nat.eq_dec (truncated_length v frame) 0) as [E | E].
    + rewrite coherence_loop_with_return by exact E.
      left. unfold coh_of, pval_of, valid_of. simpl. auto.
    + rewrite coherence_loop_with_step by exact E. apply IH.
      apply select_best_from_a_frame; assumption.
Qed.

Lemma coherence_with_from_a_frame periodicity v :
  from_a_frame periodicity v (coherence_with periodicity v).
Proof.
  unfold coherence_with.
  destruct (Nat.eq_dec (truncated_length v 0) 0) as [E | E].
  - rewrite coherence_loop_with_return by exact E.
    left. unfold coh_of, pval_of, valid_of. simpl. auto.
  - rewrite coherence_loop_with_step by exact E.
    apply coherence_loop_with_from_a_frame; [repeat constructor|].
    unfold select_best.
    destruct (periodicity v 0%nat) as [sc pv] eqn:E0. simpl fst. simpl snd.
    destruct sc as [s|]; cbv beta iota zeta delta [float_gt].
    + destruct (Rgt_dec s 0) as [Hgt | Hle]; cbv beta iota zeta.
      * destruct (Z.eqb_spec (Z.of_nat (truncated_length v 0)) (-1)); [lia|].
        right. unfold coh_of, pval_of, valid_of. simpl. split; [lra|].
        exists 0%nat. split; [lia|]. auto.
      * left. unfold coh_of, pval_of, valid_of. simpl. auto.
    + left. unfold coh_of, pval_of, valid_of. simpl. auto.
Qed.

(** X1: Whatever the frame scores are (NaN included), the score that
    [coherence] returns is a number and not negative; a score of 0.0 comes
    with the p-value 1.0 and the valid count of frame 0 (or 0, from line
    153); a positive score is the score of one of the three frames, returned
    with that frame's p-value and position count; and the valid count lies
    between 0 and the length of the array. *)
Theorem coherence_with_result
  (periodicity : list Z -> nat -> pyfloat * pyfloat) (v : list Z) :
  let r := coherence_with periodicity v in
  0 <= coh_of r
  /\ (coh_of r = 0 ->
      pval_of r = Fin 1
      /\ (valid_of r = 0%Z \/ valid_of r = Z.of_nat (truncated_length v 0)))
  /\ (0 < coh_of r ->
      exists frame,
        (frame < 3)%nat
        /\ periodicity v frame = (Fin (coh_of r), pval_of r)
        /\ valid_of r = Z.of_nat (truncated_length v frame))
  /\ (0 <= valid_of r <= Z.of_nat (length v))%Z.
Proof.
  cbv zeta. pose proof (coherence_with_from_a_frame periodicity v) as H.
  pose proof (coherence_with_valid_frame_length periodicity v) as (g & _ & Hg).
  split; [|split; [|split]].
  - destruct H as [(-> & _) | (Hpos & _)]; lra.
  - intros E0. destruct H as [(_ & Hp & Hv) | (Hpos & _)]; [auto | lra].
  - intros Hpos. destruct H as [(E0 & _) | (_ & Hfr)]; [lra | exact Hfr].
  - rewrite Hg. pose proof (truncated_length_le v g). lia.
Qed.

(** ** Arrays without signal *)

Lemma retained_codons_zeros n : retained_codons (repeat 0%Z n) = 0%nat.
Proof.
  induction n as [n IH] using lt_wf_ind.
  destruct n as [|[|[|n]]]; try reflexivity.
  simpl. apply IH. lia.
Qed.

(** X2: On an all-zero coverage array of any length, the empty one included,
    [coherence] returns [(0.0, 1.0, 0)]. *)
Theorem coherence_all_zero (n : nat) : coherence (repeat 0%Z n) = (0, Fin 1, 0%Z).
Proof.
  unfold coherence. apply coherence_loop_return.
  rewrite truncated_length_eq. simpl skipn. rewrite retained_codons_zeros. reflexivity.
Qed.

Lemma retained_codons_short (l : list Z) : (length l < 3)%nat -> retained_codons l = 0%nat.
Proof. destruct l as [|a [|b [|c l]]]; simpl; intros H; try reflexivity; lia. Qed.

(** X3: On a coverage array of fewer than 5 positions [coherence] returns
    [(0.0, 1.0, 0)] whatever the values: frame 2 has fewer than 3 positions
    left and line 153 returns. *)
Theorem coherence_short (v : list Z) :
  (length v < 5)%nat -> coherence v = (0, Fin 1, 0%Z).
Proof.
  intros H. apply coherence_empty_frame. exists 2%nat. split; [simpl; auto|].
  rewrite truncated_length_eq, retained_codons_short; [reflexivity|].
  rewrite length_skipn. lia.
Qed.

Lemma coherence_short_witness : coherence [7; 7; 1; 2]%Z = (0, Fin 1, 0%Z).
Proof. apply (coherence_short [7; 7; 1; 2]%Z). simpl. lia. Defined.

(** ** Agreement with the per-frame reading *)

(** X4: When each of the three frames retains at least one codon,
    [coherence] is the best over the three frames as the loop of lines
    131-174 selects it: it equals the loop without the early return. *)
Theorem coherence_agrees_when_no_frame_empty (v : list Z) :
  (forall frame, In frame [0; 1; 2]%nat -> retained_codons (skipn frame v) <> 0%nat) ->
  coherence v = coherence_frame_only v.
Proof.
  intros H. apply coherence_loop_agree. intros frame Hf.
  rewrite truncated_length_eq. specialize (H frame Hf). lia.
Qed.

Lemma coherence_agrees_witness : coherence cov_321 = coherence_frame_only cov_321.
Proof.
  apply (coherence_agrees_when_no_frame_empty cov_321).
  intros frame [<- | [<- | [<- | []]]]; simpl; discriminate.
Defined.

(** ** Normalization *)

Lemma fourier_modulus_sq a b c :
  (a + b * cos (2 * PI / 3) + c * cos (4 * PI / 3)) ^ 2
  + (b * sin (2 * PI / 3) + c * sin (4 * PI / 3)) ^ 2
  = ((a - b) ^ 2 + (b - c) ^ 2 + (a - c) ^ 2) / 2.
Proof.
  rewrite cos_2PI_3, cos_4PI_3, sin_2PI_3, sin_4PI_3.
  replace ((b * (sqrt 3 / 2) + c * - (sqrt 3 / 2)) ^ 2)
    with (sqrt 3 * sqrt 3 * (b - c) ^ 2 / 4) by field.
  rewrite sqrt3_sq. field.
Qed.

Lemma pow2_eq_0 x : x ^ 2 = 0 -> x = 0.
Proof.
  intros H. apply Rsqr_eq_0. unfold Rsqr. simpl in H. rewrite Rmult_1_r in H. exact H.
Qed.

Lemma fourier_modulus_zero a b c : fourier_modulus a b c = 0 <-> a = b /\ b = c.
Proof.
  unfold fourier_modulus. rewrite fourier_modulus_sq.
  assert (H1 := pow2_ge_0 (a - b)). assert (H2 := pow2_ge_0 (b - c)).
  assert (H3 := pow2_ge_0 (a - c)). split.
  - intros H. apply sqrt_eq_0 in H; [|lra].
    assert (E1 : (a - b) ^ 2 = 0) by lra. assert (E2 : (b - c) ^ 2 = 0) by lra.
    apply pow2_eq_0 in E1, E2. split; lra.
  - intros [-> ->]. replace (((c - c) ^ 2 + (c - c) ^ 2 + (c - c) ^ 2) / 2) with 0 by field.
    apply sqrt_0.
Qed.

Lemma fourier_modulus_scale k a b c :
  0 <= k -> fourier_modulus (k * a) (k * b) (k * c) = k * fourier_modulus a b c.
Proof.
  intros Hk. unfold fourier_modulus.
  replace ((k * a + k * b * cos (2 * PI / 3) + k * c * cos (4 * PI / 3)) ^ 2
           + (k * b * sin (2 * PI / 3) + k * c * sin (4 * PI / 3)) ^ 2)
    with (k ^ 2 * ((a + b * cos (2 * PI / 3) + c * cos (4 * PI / 3)) ^ 2
                   + (b * sin (2 * PI / 3) + c * sin (4 * PI / 3)) ^ 2)) by ring.
  rewrite sqrt_mult_alt by apply pow2_ge_0. rewrite sqrt_pow2 by exact Hk. reflexivity.
Qed.

(** One step of the walk of [normalize_codons]. *)
Lemma normalize_codons_cons v0 v1 v2 rest :
  normalize_codons (v0 :: v1 :: v2 :: rest) =
    if ((v0 =? v1) && (v1 =? v2) && (v2 =? 0))%Z then normalize_codons rest
    else
      let norm := fourier_modulus (IZR v0) (IZR v1) (IZR v2) in
      let norm := if Req_dec_T norm 0 then 1 else norm in
      IZR v0 / norm :: IZR v1 / norm :: IZR v2 / norm :: normalize_codons rest.
Proof. reflexivity. Qed.

(** X6: A codon whose three values are not all equal is kept and divided by
    the modulus of its period-3 Fourier component (not by its Euclidean
    norm); the normalized codon has a Fourier component of modulus 1. *)
Theorem normalize_codon_unit_modulus (v0 v1 v2 : Z) (rest : list Z) :
  ~ (v0 = v1 /\ v1 = v2)%Z ->
  exists a b c,
    normalize_codons (v0 :: v1 :: v2 :: rest) = a :: b :: c :: normalize_codons rest
    /\ a = IZR v0 / fourier_modulus (IZR v0) (IZR v1) (IZR v2)
    /\ b = IZR v1 / fourier_modulus (IZR v0) (IZR v1) (IZR v2)
    /\ c = IZR v2 / fourier_modulus (IZR v0) (IZR v1) (IZR v2)
    /\ fourier_modulus a b c = 1.
Proof.
  intros Hne. rewrite normalize_codons_cons.
  destruct ((v0 =? v1) && (v1 =? v2) && (v2 =? 0))%Z eqn:E.
  { exfalso. apply Hne. apply andb_prop in E as [E _]. apply andb_prop in E as [E1 E2].
    split; apply Z.eqb_eq; assumption. }
  cbv zeta.
  assert (Hm : fourier_modulus (IZR v0) (IZR v1) (IZR v2) <> 0).
  { rewrite fourier_modulus_zero. intros [H1 H2]. apply Hne.
    split; apply eq_IZR; assumption. }
  destruct (Req_dec_T _ 0) as [H | _]; [contradiction|].
  set (n := fourier_modulus (IZR v0) (IZR v1) (IZR v2)) in *.
  do 3 eexists. split; [reflexivity|]. do 3 (split; [reflexivity|]).
  assert (Hpos : 0 < n).
  { assert (0 <= n) by (unfold n, fourier_modulus; apply sqrt_pos). lra. }
  replace (IZR v0 / n) with (/ n * IZR v0) by (field; lra).
  replace (IZR v1 / n) with (/ n * IZR v1) by (field; lra).
  replace (IZR v2 / n) with (/ n * IZR v2) by (field; lra).
  rewrite fourier_modulus_scale by (left; apply Rinv_0_lt_compat; exact Hpos).
  fold n. field. lra.
Qed.

Lemma normalize_codon_unit_modulus_witness :
  exists a b c,
    normalize_codons [5; 2; 0]%Z = a :: b :: c :: normalize_codons []
    /\ a = 5 / fourier_modulus 5 2 0
    /\ b = 2 / fourier_modulus 5 2 0
    /\ c = 0 / fourier_modulus 5 2 0
    /\ fourier_modulus a b c = 1.
Proof. apply (normalize_codon_unit_modulus 5 2 0 []). lia. Defined.

(** ** Scaling the coverage *)

Lemma zero_test_scale k v0 v1 v2 :
  (0 < k)%Z ->
  ((k * v0 =? k * v1) && (k * v1 =? k * v2) && (k * v2 =? 0))%Z
  = ((v0 =? v1) && (v1 =? v2) && (v2 =? 0))%Z.
Proof.
  intros Hk.
  assert (E : forall a b, (k * a =? k * b)%Z = (a =? b)%Z).
  { intros a b. destruct (Z.eqb_spec a b) as [-> | Hab].
    - apply Z.eqb_refl.
    - apply Z.eqb_neq. intros H. apply Hab. apply Z.mul_reg_l with k; lia. }
  rewrite !E. replace 0%Z with (k * 0)%Z at 1 by lia. rewrite E. reflexivity.
Qed.

Lemma retained_codons_scale k vals :
  (0 < k)%Z -> retained_codons (map (Z.mul k) vals) = retained_codons vals.
Proof.
  intros Hk. induction vals as [| | |v0 v1 v2 rest IH] using triple_ind; try reflexivity.
  simpl map. cbn [retained_codons]. rewrite zero_test_scale by exact Hk.
  rewrite IH. reflexivity.
Qed.

Lemma spectrum_normalize_scale k vals :
  (0 < k)%Z ->
  spectrum (normalize_codons (map (Z.mul k) vals)) 1
  = spectrum (normalize_codons vals) 1.
Proof.
  intros Hk. assert (HR : 0 < IZR k) by (apply IZR_lt; exact Hk).
  induction vals as [| | |v0 v1 v2 rest IH] using triple_ind; try reflexivity.
  simpl map. rewrite !normalize_codons_cons, zero_test_scale by exact Hk.
  destruct ((v0 =? v1) && (v1 =? v2) && (v2 =? 0))%Z; [exact IH|].
  cbv zeta. rewrite !mult_IZR, fourier_modulus_scale by lra.
  set (n := fourier_modulus (IZR v0) (IZR v1) (IZR v2)).
  rewrite !spectrum_cons, IH. f_equal.
  destruct (Req_dec_T n 0) as [Hn | Hn].
  - destruct (Req_dec_T (IZR k * n) 0) as [_ | H]; [|exfalso; apply H; rewrite Hn; ring].
    apply fourier_modulus_zero in Hn as [E1 E2]. rewrite E1, E2.
    rewrite !rfft3_detrend. f_equal; field.
  - destruct (Req_dec_T (IZR k * n) 0) as [H | _].
    + exfalso. apply Rmult_integral in H. destruct H; [lra | contradiction].
    + assert (E : forall z, IZR k * z / (IZR k * n) = z / n)
        by (intro z; field; split; lra).
      rewrite !E. reflexivity.
Qed.

Lemma Cxy_bin_ext x x' y :
  spectrum x 1 = spectrum x' 1 -> Cxy_bin x y 1 = Cxy_bin x' y 1.
Proof.
  intros H. unfold Cxy_bin, welch, csd. cbv zeta. rewrite H. reflexivity.
Qed.

Lemma truncated_length_scale k v frame :
  (0 < k)%Z -> truncated_length (map (Z.mul k) v) frame = truncated_length v frame.
Proof.
  intros Hk. rewrite !truncated_length_eq, skipn_map, retained_codons_scale by exact Hk.
  reflexivity.
Qed.

Lemma firstn_truncated v frame :
  firstn (truncated_length v frame) (frame_signal v frame) = frame_signal v frame.
Proof.
  apply firstn_all2. rewrite truncated_length_eq. unfold frame_signal.
  rewrite length_normalize_codons. lia.
Qed.

Lemma frame_try_signal v frame :
  frame_try v frame =
    let nv := frame_signal v frame in
    let c := Cxy_bin nv (uniform_signal (length nv / 3)) 1 in
    p <- pvalue c (Z.of_nat (truncated_length v frame / 3)) ;; ret (c, p).
Proof. rewrite frame_try_eq. cbv zeta. rewrite firstn_truncated. reflexivity. Qed.

Lemma frame_periodicity_scale k v frame :
  (0 < k)%Z -> frame_periodicity (map (Z.mul k) v) frame = frame_periodicity v frame.
Proof.
  intros Hk. unfold frame_periodicity. rewrite !frame_try_signal. cbv zeta.
  rewrite truncated_length_scale by exact Hk.
  assert (L : length (frame_signal (map (Z.mul k) v) frame)
              = length (frame_signal v frame)).
  { unfold frame_signal. rewrite !length_normalize_codons, skipn_map,
      retained_codons_scale by exact Hk. reflexivity. }
  rewrite L.
  rewrite (Cxy_bin_ext (frame_signal (map (Z.mul k) v) frame) (frame_signal v frame)).
  - reflexivity.
  - unfold frame_signal. rewrite skipn_map. apply spectrum_normalize_scale. exact Hk.
Qed.

(** X5: In exact arithmetic, multiplying every coverage value by the same
    positive integer changes, in no frame, the codons retained, the
    truncated length, the score or the p-value: a frame's periodicity depends
    on the shape of the coverage, not on its depth.  (Which frame wins a tie
    is decided by the rounding of the scores and is not covered.) *)
Theorem frame_scale_invariant (k : Z) (v : list Z) (frame : nat) :
  (0 < k)%Z ->
  retained_codons (skipn frame (map (Z.mul k) v))
  = retained_codons (skipn frame v)
  /\ truncated_length (map (Z.mul k) v) frame = truncated_length v frame
  /\ frame_periodicity (map (Z.mul k) v) frame = frame_periodicity v frame.
Proof.
  intros Hk. split; [|split].
  - rewrite skipn_map. apply retained_codons_scale. exact Hk.
  - apply truncated_length_scale. exact Hk.
  - apply frame_periodicity_scale. exact Hk.
Qed.

Lemma frame_scale_invariant_witness :
  frame_periodicity (map (Z.mul 5) cov_100_010) 0 = (Fin (1 / 4), ncx2_sf 2 2 2).
Proof.
  rewrite (proj2 (proj2 (frame_scale_invariant 5 cov_100_010 0 ltac:(lia)))).
  apply frame0_cov_100_010.
Defined.

(** ** [merge_intervals] *)

(** Sorting *)

Lemma insert_by_start_perm x l : Permutation (x :: l) (insert_by_start x l).
Proof.
  induction l as [|y l IH]; simpl; [reflexivity|].
  destruct (start x <=? start y)%Z; [reflexivity|].
  rewrite perm_swap. apply perm_skip. exact IH.
Qed.

Lemma sorted_by_start_perm l : Permutation l (sorted_by_start l).
Proof.
  induction l as [|x l IH]; simpl; [reflexivity|].
  rewrite <- insert_by_start_perm. apply perm_skip. exact IH.
Qed.

Lemma insert_by_start_sorted x l :
  StronglySorted le_start l -> StronglySorted le_start (insert_by_start x l).
Proof.
  induction 1 as [|y l Hs IH Hall]; simpl.
  - constructor; constructor.
  - destruct (Z.leb_spec (start x) (start y)) as [Hle | Hgt].
    + constructor; [constructor; assumption|].
      constructor; [exact Hle|].
      eapply Forall_impl; [|exact Hall]. unfold le_start. intros a Ha. lia.
    + constructor; [exact IH|].
      apply (Permutation_Forall (insert_by_start_perm x l)).
      constructor; [unfold le_start; lia | exact Hall].
Qed.

Lemma sorted_by_start_sorted l : StronglySorted le_start (sorted_by_start l).
Proof.
  induction l as [|x l IH]; simpl; [constructor|].
  apply insert_by_start_sorted. exact IH.
Qed.

Lemma sorted_by_start_id l : Sorted le_start l -> sorted_by_start l = l.
Proof.
  induction 1 as [|x l Hs IH Hd]; [reflexivity|].
  simpl. rewrite IH. destruct Hd as [|y l Hxy]; [reflexivity|].
  simpl. unfold le_start in Hxy.
  destruct (Z.leb_spec (start x) (start y)); [reflexivity | lia].
Qed.

(** The merging pass *)

Lemma merge_run_head cur rest :
  exists x tl, merge_run cur rest = x :: tl /\ start x = start cur
               /\ chrom x = chrom cur /\ strand x = strand cur.
Proof.
  revert cur. induction rest as [|next rest IH]; intros cur; simpl.
  - exists cur, []. auto.
  - destruct (start next <=? end_ cur)%Z.
    + destruct (IH (set_end cur (Z.max (end_ cur) (end_ next)))) as (x & tl & E & Hs).
      exists x, tl. auto.
    + eexists _, _. auto.
Qed.

Lemma merge_run_apart cur rest : Sorted apart (merge_run cur rest).
Proof.
  revert cur. induction rest as [|next rest IH]; intros cur; simpl.
  - repeat constructor.
  - destruct (Z.leb_spec (start next) (end_ cur)) as [Hle | Hgt]; [apply IH|].
    constructor; [apply IH|].
    destruct (merge_run_head next rest) as (x & tl & -> & Hs & _).
    constructor. unfold apart. lia.
Qed.

Lemma merge_run_le_start cur rest :
  StronglySorted le_start (cur :: rest) ->
  StronglySorted le_start (merge_run cur rest).
Proof.
  revert cur. induction rest as [|next rest IH]; intros cur Hs; simpl.
  - exact Hs.
  - apply StronglySorted_inv in Hs as [Hs Hall].
    apply StronglySorted_inv in Hs as [Hs' Hall'].
    apply Forall_inv_tail in Hall as Hall2. apply Forall_inv in Hall as Hcn.
    destruct (start next <=? end_ cur)%Z.
    + apply IH. constructor; [exact Hs'|]. exact Hall2.
    + assert (Hn : StronglySorted le_start (merge_run next rest)).
      { apply IH. constructor; assumption. }
      constructor; [exact Hn|].
      clear IH Hs'.
      assert (G : forall c r, Forall (le_start cur) (c :: r) ->
                              Forall (le_start cur) (merge_run c r)).
      { intros c r. revert c. induction r as [|n r IHr]; intros c Hc; simpl.
        - exact Hc.
        - apply Forall_inv in Hc as H1. apply Forall_inv_tail in Hc as H2.
          destruct (start n <=? end_ c)%Z.
          + apply IHr. constructor; [exact H1|]. apply Forall_inv_tail in H2. exact H2.
          + constructor; [exact H1|]. apply IHr. exact H2. }
      apply G. exact Hall.
Qed.

Lemma merge_run_id cur rest :
  Sorted apart (cur :: rest) -> merge_run cur rest = cur :: rest.
Proof.
  revert cur. induction rest as [|next rest IH]; intros cur Hs; [reflexivity|].
  simpl. apply Sorted_inv in Hs as [Hs Hd]. apply HdRel_inv in Hd.
  unfold apart in Hd. destruct (Z.leb_spec (start next) (end_ cur)); [lia|].
  rewrite IH by exact Hs. reflexivity.
Qed.

Lemma merge_run_covered cur rest p :
  StronglySorted le_start (cur :: rest) ->
  covered (merge_run cur rest) p <-> covered (cur :: rest) p.
Proof.
  revert cur. induction rest as [|next rest IH]; intros cur Hs; simpl; [reflexivity|].
  apply StronglySorted_inv in Hs as [Hs Hall].
  apply StronglySorted_inv in Hs as [Hs' Hall'].
  apply Forall_inv_tail in Hall as Hall2. apply Forall_inv in Hall as Hcn.
  unfold le_start in Hcn.
  destruct (Z.leb_spec (start next) (end_ cur)) as [Hle | Hgt].
  - rewrite IH by (constructor; assumption).
    unfold covered. split; intros (iv & Hin & Hc).
    + destruct Hin as [<- | Hin].
      * unfold covers, set_end in Hc. simpl in Hc.
        destruct (Z_le_gt_dec p (end_ cur)).
        -- exists cur. split; [simpl; auto | unfold covers; lia].
        -- exists next. split; [simpl; auto | unfold covers; lia].
      * exists iv. split; [simpl; auto | exact Hc].
    + destruct Hin as [<- | [<- | Hin]].
      * eexists. split; [left; reflexivity|]. unfold covers, set_end in *. simpl. lia.
      * eexists. split; [left; reflexivity|]. unfold covers, set_end in *. simpl. lia.
      * exists iv. split; [simpl; auto | exact Hc].
  - unfold covered. split; intros (iv & Hin & Hc).
    + destruct Hin as [<- | Hin]; [exists cur; simpl; auto|].
      assert (Hx : covered (merge_run next rest) p) by (exists iv; auto).
      apply IH in Hx; [|constructor; assumption].
      destruct Hx as (iv' & Hin' & Hc'). exists iv'. split; [right; exact Hin' | exact Hc'].
    + destruct Hin as [<- | Hin]; [exists cur; simpl; auto|].
      assert (Hx : covered (next :: rest) p) by (exists iv; auto).
      apply IH in Hx; [|constructor; assumption].
      destruct Hx as (iv' & Hin' & Hc'). exists iv'. split; [right; exact Hin' | exact Hc'].
Qed.

Lemma merge_intervals_sorted_input l :
  merge_intervals l =
    match sorted_by_start l with [] => [] | first :: rest => merge_run first rest end.
Proof. reflexivity. Qed.

(** The merged intervals are pairwise apart and in the order of their
    starts. *)
Lemma merge_intervals_apart_sorted (l : list Interval) :
  Sorted apart (merge_intervals l) /\ StronglySorted le_start (merge_intervals l).
Proof.
  unfold merge_intervals. assert (Hs := sorted_by_start_sorted l).
  destruct (sorted_by_start l) as [|first rest].
  - split; constructor.
  - split; [apply merge_run_apart | apply merge_run_le_start; exact Hs].
Qed.

(** X11: In the result of [merge_intervals] each interval ends strictly
    before the next one starts, and the starts are in non-decreasing order. *)
Theorem merge_intervals_apart (l : list Interval) :
  Sorted apart (merge_intervals l) /\ StronglySorted le_start (merge_intervals l).
Proof. apply merge_intervals_apart_sorted. Qed.

(** X12: Merging changes no position's membership: a position lies in one of
    the merged intervals exactly when it lies in one of the given intervals. *)
Theorem merge_intervals_covered (l : list Interval) (p : Z) :
  covered (merge_intervals l) p <-> covered l p.
Proof.
  unfold merge_intervals. assert (Hs := sorted_by_start_sorted l).
  assert (Hp := sorted_by_start_perm l).
  assert (Hc : covered (sorted_by_start l) p <-> covered l p).
  { unfold covered. split; intros (iv & Hin & Hc); exists iv; split; try exact Hc.
    - apply Permutation_sym in Hp. apply (Permutation_in _ Hp Hin).
    - apply (Permutation_in _ Hp Hin). }
  rewrite <- Hc. destruct (sorted_by_start l) as [|first rest]; [reflexivity|].
  apply merge_run_covered. exact Hs.
Qed.

(** X13: Merging twice is merging once: [merge_intervals] leaves its own
    result unchanged. *)
Theorem merge_intervals_idempotent (l : list Interval) :
  merge_intervals (merge_intervals l) = merge_intervals l.
Proof.
  destruct (merge_intervals_apart_sorted l) as [Ha Hs].
  set (m := merge_intervals l) in *.
  unfold merge_intervals at 1.
  rewrite sorted_by_start_id by (apply StronglySorted_Sorted; exact Hs).
  destruct m as [|first rest]; [reflexivity|]. apply merge_run_id. exact Ha.
Qed.

(** ** [is_read_uniq_mapping] *)

(** X15: [is_read_uniq_mapping] returns True exactly for a read that is not
    secondary and has NH = 1, or no NH tag and mapping quality 255; it
    raises NameError exactly for a non-secondary read without NH tag whose
    mapping quality is at least 1 and not 255 ([__SAM_NOT_UNIQ_FLAGS__] is
    bound nowhere); it raises nothing else and never depends on the flag. *)
Theorem is_read_uniq_mapping_table (r : read) :
  (is_read_uniq_mapping r = inr true <->
   is_secondary r = false
   /\ (dict_of_pairs (get_tags r) "NH"%string = Some 1%Z
       \/ (dict_of_pairs (get_tags r) "NH"%string = None /\ mapping_quality r = 255%Z)))
  /\ (is_read_uniq_mapping r = inl Exc.NameError <->
      is_secondary r = false
      /\ dict_of_pairs (get_tags r) "NH"%string = None
      /\ (1 <= mapping_quality r)%Z /\ mapping_quality r <> 255%Z)
  /\ (forall e, is_read_uniq_mapping r = inl e -> e = Exc.NameError)
  /\ (forall f, is_read_uniq_mapping
                  (mkRead (is_secondary r) (get_tags r) (mapping_quality r) f)
                = is_read_uniq_mapping r).
Proof.
  unfold is_read_uniq_mapping. simpl.
  destruct (is_secondary r);
    [|destruct (dict_of_pairs (get_tags r) "NH"%string) as [nh|];
      [destruct (Z.eqb_spec nh 1)
      |destruct (Z.eqb_spec (mapping_quality r) 255);
       [|destruct (Z.ltb_spec (mapping_quality r) 1)]]];
    (split; [|split; [|split]]);
    try (split; intros);
    try (intros e He);
    try reflexivity;
    intuition (try discriminate; try congruence; try lia).
Qed.

(** ** [ORF] and [orf_coverage] *)


Lemma count_if_try alignments strand chrom pos :
  count_if alignments strand chrom pos = count_try alignments strand chrom pos.
Proof.
  unfold count_if, count_try, contains.
  destruct (lookup String.eqb alignments strand) as [c|]; [|reflexivity].
  destruct (lookup position_eqb c (chrom, pos)); reflexivity.
Qed.

Lemma length_zrange a b : length (zrange a b) = Z.to_nat (b - a).
Proof. unfold zrange. rewrite length_map, length_seq. reflexivity. Qed.

Lemma length_flat_map_zrange (f : Z -> Z) l :
  length (flat_map (fun iv => map f (zrange (start iv) (end_ iv + 1))) l)
  = fold_right (fun iv acc => (span iv + acc)%nat) 0%nat l.
Proof.
  induction l as [|iv l IH]; [reflexivity|].
  simpl. rewrite length_app, length_map, length_zrange, IH. reflexivity.
Qed.

Theorem orf_coverage_length (orf : ORF.t) (alignments : by_strand)
  (offset_5p offset_3p : Z) (cov : list Z) :
  orf_coverage orf alignments offset_5p offset_3p = inr cov ->
  length cov
  = (Z.to_nat offset_5p
     + fold_right (fun iv acc => (span iv + acc)%nat) 0%nat (ORF.intervals orf)
     + Z.to_nat offset_3p)%nat.
Proof.
  unfold orf_coverage.
  destruct (String.eqb (ORF.strand orf) "-"); cbv beta iota zeta;
    (destruct (ORF.intervals orf) as [|first rest]; [discriminate|]);
    intros [= <-];
    rewrite ?length_rev, !length_app, !length_map, !length_zrange,
      length_flat_map_zrange;
    repeat match goal with
      | |- context [Z.to_nat (?a - (?a - ?o))] =>
          replace (a - (a - o))%Z with o by lia
      | |- context [Z.to_nat (?e + ?o + 1 - (?e + 1))] =>
          replace (e + o + 1 - (e + 1))%Z with o by lia
      end; cbn [fold_right]; unfold span; lia.
Qed.

Lemma coverage_ext (c c' : Z -> Z) (l1 l3 : list Z) (ivs : list Interval) :
  (forall p, c p = c' p) ->
  map c l1
  ++ flat_map (fun interval => map c (zrange (start interval) (end_ interval + 1))) ivs
  ++ map c l3
  = map c' l1
    ++ flat_map (fun interval => map c' (zrange (start interval) (end_ interval + 1))) ivs
    ++ map c' l3.
Proof.
  intros H. rewrite (map_ext c c' H l1), (map_ext c c' H l3).
  rewrite (flat_map_ext _ (fun interval =>
             map c' (zrange (start interval) (end_ interval + 1)))).
  - reflexivity.
  - intro iv. apply map_ext. exact H.
Qed.

(** X18: The coverage does not depend on the category: the try/except of
    annotated ORFs and the membership tests of the others read the same
    counts, so two ORFs with the same chromosome, strand and intervals get
    the same coverage. *)
Theorem orf_coverage_category_blind (orf orf' : ORF.t) (alignments : by_strand)
  (offset_5p offset_3p : Z) :
  ORF.chrom orf = ORF.chrom orf' ->
  ORF.strand orf = ORF.strand orf' ->
  ORF.intervals orf = ORF.intervals orf' ->
  orf_coverage orf alignments offset_5p offset_3p
  = orf_coverage orf' alignments offset_5p offset_3p.
Proof.
  intros Hc Hs Hi. unfold orf_coverage. rewrite Hc, Hs, Hi.
  set (b := String.eqb (ORF.category orf) "annotated").
  set (b' := String.eqb (ORF.category orf') "annotated").
  assert (E : forall p,
             (if b then count_try alignments (ORF.strand orf') (ORF.chrom orf')
              else count_if alignments (ORF.strand orf') (ORF.chrom orf')) p
             = (if b' then count_try alignments (ORF.strand orf') (ORF.chrom orf')
                else count_if alignments (ORF.strand orf') (ORF.chrom orf')) p).
  { intro p. destruct b, b'; rewrite ?count_if_try; reflexivity. }
  destruct (String.eqb (ORF.strand orf') "-"); cbv beta iota zeta;
    (destruct (ORF.intervals orf') as [|first rest]; [reflexivity|]);
    rewrite (coverage_ext _ _ _ _ _ E); reflexivity.
Qed.

Lemma sorted_by_start_nil l : sorted_by_start l = [] -> l = [].
Proof.
  intros H. apply Permutation_nil. rewrite <- H.
  apply Permutation_sym, sorted_by_start_perm.
Qed.

(** X16: [ORF(...)] raises IndexError on an empty list of intervals, and
    otherwise keeps every interval, in the order of their starts, with
    category, chromosome, strand and sequence as given. *)
Theorem ORF_init_intervals
  (category tid ttype gid gname gtype chrom strand : String.string)
  (intervals : list Interval) (seq leader trailer : String.string) :
  (intervals = [] ->
   ORF.init category tid ttype gid gname gtype chrom strand intervals
     seq leader trailer = inl Exc.IndexError)
  /\ (intervals <> [] ->
      exists orf,
        ORF.init category tid ttype gid gname gtype chrom strand intervals
          seq leader trailer = inr orf
        /\ ORF.intervals orf <> []
        /\ StronglySorted le_start (ORF.intervals orf)
        /\ Permutation intervals (ORF.intervals orf)
        /\ ORF.category orf = category /\ ORF.chrom orf = chrom
        /\ ORF.strand orf = strand /\ ORF.seq orf = seq).
Proof.
  split.
  - intros ->. reflexivity.
  - intros Hne. unfold ORF.init.
    destruct (sorted_by_start intervals) as [|first rest] eqn:E.
    + apply sorted_by_start_nil in E. contradiction.
    + eexists. split; [reflexivity|]. simpl.
      split; [discriminate|]. rewrite <- E.
      split; [apply sorted_by_start_sorted|].
      split; [apply sorted_by_start_perm|]. auto.
Qed.

Lemma ORF_init_intervals_witness :
  exists orf,
    ORF.init "annotated" "T1" "mRNA" "G1" "g" "protein_coding" "chr1" "+"
      [mkInterval "chr1" 20 30 "+"; mkInterval "chr1" 1 9 "+"] "" "" "" = inr orf
    /\ ORF.intervals orf <> []
    /\ StronglySorted le_start (ORF.intervals orf)
    /\ Permutation [mkInterval "chr1" 20 30 "+"; mkInterval "chr1" 1 9 "+"]
         (ORF.intervals orf)
    /\ ORF.category orf = "annotated"%string /\ ORF.chrom orf = "chr1"%string
    /\ ORF.strand orf = "+"%string /\ ORF.seq orf = ""%string.
Proof.
  apply (proj2 (ORF_init_intervals "annotated" "T1" "mRNA" "G1" "g"
                  "protein_coding" "chr1" "+"
                  [mkInterval "chr1" 20 30 "+"; mkInterval "chr1" 1 9 "+"] "" "" "")).
  discriminate.
Defined.

(** X19: The coverage of an ORF built by [ORF(...)] never fails, and its
    length is the 5' flank, plus the positions of the intervals given to the
    constructor, plus the 3' flank. *)
Theorem orf_coverage_of_init
  (category tid ttype gid gname gtype chrom strand : String.string)
  (intervals : list Interval) (seq leader trailer : String.string)
  (orf : ORF.t) (alignments : by_strand) (offset_5p offset_3p : Z) :
  ORF.init category tid ttype gid gname gtype chrom strand intervals
    seq leader trailer = inr orf ->
  exists cov,
    orf_coverage orf alignments offset_5p offset_3p = inr cov
    /\ length cov
       = (Z.to_nat offset_5p
          + fold_right (fun iv acc => (span iv + acc)%nat) 0%nat intervals
          + Z.to_nat offset_3p)%nat.
Proof.
  intros Hinit.
  assert (Hi : ORF.intervals orf = sorted_by_start intervals
               /\ ORF.intervals orf <> []).
  { unfold ORF.init in Hinit.
    destruct (sorted_by_start intervals) as [|first rest] eqn:E; [discriminate|].
    injection Hinit as <-. simpl. split; [reflexivity | discriminate]. }
  destruct Hi as [Hs Hne].
  destruct (orf_coverage orf alignments offset_5p offset_3p) as [e | cov] eqn:E.
  - exfalso. unfold orf_coverage in E.
    destruct (String.eqb (ORF.strand orf) "-"); cbv beta iota zeta in E;
      destruct (ORF.intervals orf); try contradiction; discriminate.
  - exists cov. split; [reflexivity|].
    rewrite (orf_coverage_length _ _ _ _ _ E), Hs. do 2 f_equal.
    assert (P := sorted_by_start_perm intervals). clear -P.
    induction P; simpl; try lia.
Qed.

Lemma orf_coverage_of_init_witness :
  exists cov,
    orf_coverage
      (ORF.mk "novel" "T1" "mRNA" "G1" "g" "pc" "chr1" "-"
         [mkInterval "chr1" 1 9 "-"; mkInterval "chr1" 20 30 "-"]
         "T1_1_30_20" "" "" "")
      [] 3 0 = inr cov
    /\ length cov
       = (Z.to_nat 3
          + fold_right (fun iv acc => (span iv + acc)%nat) 0%nat
              [mkInterval "chr1" 20 30 "-"; mkInterval "chr1" 1 9 "-"]
          + Z.to_nat 0)%nat.
Proof.
  apply (orf_coverage_of_init "novel" "T1" "mRNA" "G1" "g" "pc" "chr1" "-"
           [mkInterval "chr1" 20 30 "-"; mkInterval "chr1" 1 9 "-"] "" "" "").
  reflexivity.
Defined.

(** [start_codon] is None exactly for a sequence shorter than 3, and
    otherwise the three first characters of the sequence. *)
Theorem start_codon_prefix (self : ORF.t) :
  match ORF.start_codon self with
  | None => (String.length (ORF.seq self) < 3)%nat
  | Some c => String.length c = 3%nat /\ String.prefix c (ORF.seq self) = true
  end.
Proof.
  unfold ORF.start_codon.
  destruct (ORF.seq self) as [|a [|b [|c s]]]; simpl; try lia.
  destruct (Ascii.ascii_dec a a); [|contradiction].
  destruct (Ascii.ascii_dec b b); [|contradiction].
  destruct (Ascii.ascii_dec c c); [|contradiction].
  destruct s; split; reflexivity.
Qed.

(** ** [merge_read_lengths] *)


Lemma position_eqb_eq a b : position_eqb a b = true <-> a = b.
Proof.
  destruct a as [c p], b as [c' p']. unfold position_eqb. simpl.
  rewrite andb_true_iff, String.eqb_eq, Z.eqb_eq. split.
  - intros [-> ->]. reflexivity.
  - intros [= -> ->]. auto.
Qed.

Lemma position_eqb_refl a : position_eqb a a = true.
Proof. apply position_eqb_eq. reflexivity. Qed.

Lemma get0_cons k n rest key :
  get0 ((k, n) :: rest) key = if position_eqb k key then n else get0 rest key.
Proof. unfold get0. simpl. destruct (position_eqb k key); reflexivity. Qed.

Lemma get0_counter_add c k n k' :
  get0 (counter_add c k n) k'
  = (get0 c k' + if position_eqb k k' then n else 0)%Z.
Proof.
  induction c as [|[k1 n1] rest IH]; simpl.
  - rewrite get0_cons. unfold get0. simpl. destruct (position_eqb k k'); lia.
  - destruct (position_eqb k1 k) eqn:E1.
    + apply position_eqb_eq in E1. subst k1. rewrite !get0_cons.
      destruct (position_eqb k k'); lia.
    + rewrite !get0_cons. destruct (position_eqb k1 k') eqn:E2.
      * apply position_eqb_eq in E2. subst k'. 
        destruct (position_eqb k k1) eqn:E3; [|lia].
        apply position_eqb_eq in E3. subst k. rewrite position_eqb_refl in E1.
        discriminate.
      * exact IH.
Qed.

Lemma count_try_cons s c rest s' ch p :
  count_try ((s, c) :: rest) s' ch p
  = if String.eqb s s' then get0 c (ch, p) else count_try rest s' ch p.
Proof. unfold count_try, get0. simpl. destruct (String.eqb s s'); reflexivity. Qed.

Lemma count_try_merged_add m s k n s' ch p :
  count_try (merged_add m s k n) s' ch p
  = (count_try m s' ch p
     + if String.eqb s s' && position_eqb k (ch, p) then n else 0)%Z.
Proof.
  induction m as [|[s1 c1] rest IH]; simpl.
  - rewrite count_try_cons. change (count_try [] s' ch p) with 0%Z.
    destruct (String.eqb s s'); simpl; [|reflexivity].
    rewrite get0_cons. unfold get0. simpl. destruct (position_eqb k (ch, p)); lia.
  - destruct (String.eqb s1 s) eqn:E1.
    + apply String.eqb_eq in E1. subst s1. rewrite !count_try_cons.
      destruct (String.eqb s s'); simpl; [|lia]. apply get0_counter_add.
    + rewrite !count_try_cons. destruct (String.eqb s1 s') eqn:E2.
      * apply String.eqb_eq in E2. subst s'.
        destruct (String.eqb s s1) eqn:E3; simpl; [|lia].
        apply String.eqb_eq in E3. subst s. rewrite String.eqb_refl in E1.
        discriminate.
      * exact IH.
Qed.

Lemma lookup_not_in {V : Type} (c : list (position * V)) key :
  ~ In key (map fst c) -> lookup position_eqb c key = None.
Proof.
  induction c as [|[k n] rest IH]; simpl; [reflexivity|].
  intros H. destruct (position_eqb k key) eqn:E.
  - apply position_eqb_eq in E. exfalso. apply H. auto.
  - apply IH. intros Hin. apply H. auto.
Qed.

Lemma lookup_string_not_in {V : Type} (d : list (String.string * V)) key :
  ~ In key (map fst d) -> lookup String.eqb d key = None.
Proof.
  induction d as [|[k n] rest IH]; simpl; [reflexivity|].
  intros H. destruct (String.eqb k key) eqn:E.
  - apply String.eqb_eq in E. exfalso. apply H. auto.
  - apply IH. intros Hin. apply H. auto.
Qed.

(** A sum over distinct keys that selects one of them. *)
Lemma zsum_select {K : Type} (eqb : K -> K -> bool) (f : K -> Z) (ks : list K) (k0 : K) :
  (forall a b, eqb a b = true <-> a = b) ->
  NoDup ks ->
  (In k0 ks -> zsum_map (fun k => if eqb k k0 then f k else 0%Z) ks = f k0)
  /\ (~ In k0 ks -> zsum_map (fun k => if eqb k k0 then f k else 0%Z) ks = 0%Z).
Proof.
  intros Heq Hnd. induction Hnd as [|k ks Hk Hnd [IH1 IH2]]; simpl.
  - split; [intros [] | reflexivity].
  - destruct (eqb k k0) eqn:E.
    + apply Heq in E. subst k0. split; intros H.
      * rewrite IH2 by exact Hk. lia.
      * exfalso. apply H. left. reflexivity.
    + assert (Hne : k <> k0).
      { intros ->. assert (H : eqb k0 k0 = true) by (apply Heq; reflexivity).
        congruence. }
      split; intros H.
      * destruct H as [H | H]; [contradiction|]. rewrite IH1 by exact H. lia.
      * rewrite IH2; [lia|]. intros Hin. apply H. auto.
Qed.

Lemma zsum_counter_select (c : Counter) (k0 : position) :
  distinct_keys c ->
  zsum_map (fun k => if position_eqb k k0 then get0 c k else 0%Z) (map fst c)
  = get0 c k0.
Proof.
  intros Hnd.
  destruct (zsum_select position_eqb (get0 c) (map fst c) k0 position_eqb_eq Hnd)
    as [H1 H2].
  destruct (in_dec (fun a b => match Bool.bool_dec (position_eqb a b) true with
                               | left e => left (proj1 (position_eqb_eq a b) e)
                               | right ne =>
                                   right (fun e => ne (proj2 (position_eqb_eq a b) e))
                               end) k0 (map fst c)) as [Hin | Hnin].
  - exact (H1 Hin).
  - transitivity 0%Z; [exact (H2 Hnin)|]. unfold get0.
    rewrite lookup_not_in by exact Hnin. reflexivity.
Qed.

Lemma shifted_key_eqb s off key ch p :
  position_eqb (fst key, pos_shifted s off (snd key)) (ch, p)
  = position_eqb key (ch, pos_unshifted s off p).
Proof.
  destruct key as [c q]. unfold position_eqb, pos_shifted, pos_unshifted. simpl.
  destruct (String.eqb c ch); simpl; [|reflexivity].
  destruct (String.eqb s "+");
    destruct (Z.eqb_spec (q + off) p), (Z.eqb_spec q (p - off)),
      (Z.eqb_spec (q - off) p), (Z.eqb_spec q (p + off)); try reflexivity; lia.
Qed.

Lemma count_try_fold_positions (c : Counter) s off ks m s' ch p :
  count_try
    (fold_left
       (fun merged key =>
          let count := get0 c key in
          merged_add merged s (fst key, pos_shifted s off (snd key)) count)
       ks m) s' ch p
  = (count_try m s' ch p
     + if String.eqb s s'
       then zsum_map (fun k => if position_eqb k (ch, pos_unshifted s off p)
                               then get0 c k else 0%Z) ks
       else 0)%Z.
Proof.
  revert m. induction ks as [|key ks IH]; intros m; simpl.
  - destruct (String.eqb s s'); lia.
  - rewrite IH, count_try_merged_add, shifted_key_eqb.
    destruct (String.eqb s s'); simpl; [|lia].
    destruct (position_eqb key (ch, pos_unshifted s off p)); lia.
Qed.

Lemma count_try_merge_positions m s c off s' ch p :
  distinct_keys c ->
  count_try (merge_positions m s c off) s' ch p
  = (count_try m s' ch p
     + if String.eqb s s' then get0 c (ch, pos_unshifted s off p) else 0)%Z.
Proof.
  intros Hnd. unfold merge_positions. rewrite count_try_fold_positions.
  rewrite zsum_counter_select by exact Hnd. reflexivity.
Qed.

Lemma lookup_in_distinct {V : Type} (d : list (String.string * V)) k v :
  distinct_keys d -> In (k, v) d -> lookup String.eqb d k = Some v.
Proof.
  unfold distinct_keys. induction d as [|[k1 v1] rest IH]; simpl; [intros _ []|].
  intros Hnd Hin. apply NoDup_cons_iff in Hnd as [Hk Hnd].
  destruct Hin as [[= -> ->] | Hin].
  - rewrite String.eqb_refl. reflexivity.
  - destruct (String.eqb k1 k) eqn:E.
    + apply String.eqb_eq in E. subst k1. exfalso. apply Hk.
      apply (in_map fst) in Hin. exact Hin.
    + apply IH; assumption.
Qed.

Lemma count_try_lookup (al : by_strand) s ch q :
  count_try al s ch q
  = match lookup String.eqb al s with
    | Some c => get0 c (ch, q)
    | None => 0%Z
    end.
Proof. reflexivity. Qed.

Lemma count_try_fold_strands (per_strand : by_strand) off ks m s' ch p :
  distinct_keys per_strand ->
  (forall strand c, In (strand, c) per_strand -> distinct_keys c) ->
  count_try
    (fold_left
       (fun merged strand =>
          match lookup String.eqb per_strand strand with
          | Some c => merge_positions merged strand c off
          | None => merged
          end)
       ks m) s' ch p
  = (count_try m s' ch p
     + zsum_map (fun s => if String.eqb s s'
                          then count_try per_strand s ch (pos_unshifted s off p)
                          else 0%Z) ks)%Z.
Proof.
  intros Hnd Hc. revert m. induction ks as [|s ks IH]; intros m; simpl; [lia|].
  rewrite IH. rewrite (count_try_lookup per_strand s).
  destruct (lookup String.eqb per_strand s) as [c|] eqn:E.
  - rewrite count_try_merge_positions.
    + destruct (String.eqb s s'); lia.
    + assert (Hin : In (s, c) per_strand).
      { clear -E. induction per_strand as [|[k1 v1] rest IH]; simpl in *; [discriminate|].
        destruct (String.eqb k1 s) eqn:E1.
        - apply String.eqb_eq in E1. injection E as <-. subst. auto.
        - right. apply IH. exact E. }
      apply (Hc _ _ Hin).
  - destruct (String.eqb s s'); lia.
Qed.

Lemma count_try_merge_strands m per_strand off s' ch p :
  distinct_keys per_strand ->
  (forall strand c, In (strand, c) per_strand -> distinct_keys c) ->
  count_try (merge_strands m per_strand off) s' ch p
  = (count_try m s' ch p
     + count_try per_strand s' ch (pos_unshifted s' off p))%Z.
Proof.
  intros Hnd Hc. unfold merge_strands. rewrite count_try_fold_strands by assumption.
  f_equal.
  destruct (zsum_select String.eqb
              (fun s => count_try per_strand s ch (pos_unshifted s off p))
              (map fst per_strand) s' String.eqb_eq Hnd) as [H1 H2].
  destruct (in_dec String.string_dec s' (map fst per_strand)) as [Hin | Hnin].
  - exact (H1 Hin).
  - transitivity 0%Z; [exact (H2 Hnin)|]. unfold count_try.
    rewrite lookup_string_not_in by exact Hnin. reflexivity.
Qed.

Lemma lookup_Z_in {V : Type} (d : list (Z * V)) k v :
  lookup Z.eqb d k = Some v -> In (k, v) d.
Proof.
  induction d as [|[k1 v1] rest IH]; simpl; [discriminate|].
  destruct (Z.eqb_spec k1 k) as [-> | _].
  - intros [= ->]. auto.
  - intros H. right. apply IH. exact H.
Qed.

Lemma count_try_merge_lengths alignments items m merged s ch p :
  well_formed alignments ->
  merge_lengths alignments items m = inr merged ->
  count_try merged s ch p
  = (count_try m s ch p + shifted_total alignments items s ch p)%Z.
Proof.
  intros Hwf. revert m. induction items as [|[len off] items IH]; intros m; simpl.
  - intros [= ->]. lia.
  - destruct (lookup Z.eqb alignments len) as [per_strand|] eqn:E; [|discriminate].
    intros H. rewrite (IH _ H).
    destruct (Hwf _ _ (lookup_Z_in _ _ _ E)) as [Hnd Hc].
    rewrite count_try_merge_strands by assumption. lia.
Qed.

(** X20: After [merge_read_lengths], the count at a position of a strand is
    the sum, over the read lengths listed in psite_offsets, of the counts of
    that length at the position its offset shifts there (pos - offset on
    '+', pos + offset on any other strand). *)
Theorem merge_read_lengths_count (alignments : list (Z * by_strand))
  (psite_offsets : list (Z * Z)) (merged : by_strand)
  (strand chrom : String.string) (pos : Z) :
  well_formed alignments ->
  merge_read_lengths alignments psite_offsets = inr merged ->
  count_try merged strand chrom pos
  = shifted_total alignments psite_offsets strand chrom pos.
Proof.
  intros Hwf H. unfold merge_read_lengths in H.
  rewrite (count_try_merge_lengths _ _ _ _ strand chrom pos Hwf H). reflexivity.
Qed.

(** X21: [merge_read_lengths] fails (KeyError) exactly when psite_offsets
    lists a read length that is not a key of the alignments. *)
Theorem merge_read_lengths_fails (alignments : list (Z * by_strand))
  (psite_offsets : list (Z * Z)) :
  (exists e, merge_read_lengths alignments psite_offsets = inl e) <->
  exists length offset,
    In (length, offset) psite_offsets /\ lookup Z.eqb alignments length = None.
Proof.
  unfold merge_read_lengths. generalize (@nil (String.string * Counter)) as m.
  induction psite_offsets as [|[len off] items IH]; intros m; simpl.
  - split; [intros [e H]; discriminate | intros (l & o & [] & _)].
  - destruct (lookup Z.eqb alignments len) as [per_strand|] eqn:E.
    + rewrite IH. split.
      * intros (l & o & Hin & Hl). exists l, o. auto.
      * intros (l & o & [[= <- <-] | Hin] & Hl); [congruence|]. exists l, o. auto.
    + split; [|intros _; eexists; reflexivity].
      intros _. exists len, off. auto.
Qed.

(** ** [ORF.from_string] and [parse_ribotricer_index] *)

Section FromStringProperties.

Variable py_int : String.string -> option Z.


Lemma split_nonempty sep s : split sep s <> [].
Proof.
  destruct s as [|c s]; simpl; [discriminate|].
  destruct (Ascii.eqb c sep); [discriminate|]. destruct (split sep s); discriminate.
Qed.

Lemma mapM_length {A B : Type} (f : A -> outcome B) l bs :
  mapM f l = inr bs -> length bs = length l.
Proof.
  revert bs. induction l as [|a l IH]; simpl; intros bs.
  - intros [= <-]. reflexivity.
  - destruct (f a); [discriminate|]. destruct (mapM f l); [discriminate|].
    intros [= <-]. simpl. f_equal. apply IH. reflexivity.
Qed.

Lemma mapM_Forall {A B : Type} (f : A -> outcome B) (P : B -> Prop) l bs :
  (forall a b, f a = inr b -> P b) -> mapM f l = inr bs -> Forall P bs.
Proof.
  intros Hf. revert bs. induction l as [|a l IH]; simpl; intros bs.
  - intros [= <-]. constructor.
  - destruct (f a) eqn:E; [discriminate|]. destruct (mapM f l); [discriminate|].
    intros [= <-]. constructor; [apply (Hf _ _ E) | apply IH; reflexivity].
Qed.

Lemma parse_group_labels c s group iv :
  parse_group py_int c s group = inr iv -> chrom iv = c /\ strand iv = s.
Proof.
  unfold parse_group. destruct (split "-"%char group) as [|a [|b [|x l]]];
    try discriminate.
  destruct (py_int a); [|discriminate]. destruct (py_int b); [|discriminate].
  intros [= <-]. auto.
Qed.

(** A parsed ORF: its intervals are there, sorted, on its own chromosome and
    strand; it has no sequence, hence no start codon. *)
Lemma from_string_orf_facts (line : String.string) (orf : ORF.t) :
  from_string py_int line = inr (Some orf) ->
  ORF.intervals orf <> []
  /\ StronglySorted le_start (ORF.intervals orf)
  /\ Forall (fun iv => chrom iv = ORF.chrom orf /\ strand iv = ORF.strand orf)
       (ORF.intervals orf)
  /\ ORF.start_codon orf = None.
Proof.
  unfold from_string. destruct (String.eqb line ""); [discriminate|].
  destruct (split tab line) as [|f0 [|f1 [|f2 [|f3 [|f4 [|f5 [|f6 [|f7 [|f8 [|f9 [|x l]]]]]]]]]]];
    try discriminate.
  destruct (mapM (parse_group py_int f7 f8) (split ","%char f9)) as [e | ivs] eqn:E;
    [discriminate|].
  assert (Hlab : Forall (fun iv => chrom iv = f7 /\ strand iv = f8) ivs).
  { apply (mapM_Forall _ _ _ _ (parse_group_labels f7 f8) E). }
  unfold ORF.init.
  destruct (sorted_by_start ivs) as [|first rest] eqn:Es; [discriminate|].
  intros [= <-]. simpl. split; [discriminate|]. rewrite <- Es.
  split; [apply sorted_by_start_sorted|]. split; [|reflexivity].
  apply (Permutation_Forall (sorted_by_start_perm ivs)). exact Hlab.
Qed.

(** X22: An ORF parsed by [from_string] has at least one interval, its
    intervals sorted by start and all on the ORF's own chromosome and
    strand, and no sequence: its start codon is None. *)
Theorem from_string_orf (line : String.string) (orf : ORF.t) :
  from_string py_int line = inr (Some orf) ->
  ORF.intervals orf <> []
  /\ StronglySorted le_start (ORF.intervals orf)
  /\ Forall (fun iv => chrom iv = ORF.chrom orf /\ strand iv = ORF.strand orf)
       (ORF.intervals orf)
  /\ ORF.start_codon orf = None.
Proof. apply from_string_orf_facts. Qed.

(** The first column (the ORF id) is never used. *)
Lemma split_first_column (f0 rest : String.string) :
  str_in (String.String tab String.EmptyString) f0 = false ->
  split tab (String.append f0 (String.String tab rest)) = f0 :: split tab rest.
Proof.
  induction f0 as [|c f0 IH]; simpl.
  - intros _. reflexivity.
  - destruct (Ascii.ascii_dec tab c) as [<- | Hne].
    + destruct f0; discriminate.
    + intros H. rewrite IH.
      * destruct (Ascii.eqb_spec c tab) as [-> | _]; [contradiction | reflexivity].
      * destruct f0; simpl in *; [reflexivity|].
        apply orb_false_iff in H as [_ H]. exact H.
Qed.

(** X23: [from_string] never uses the first column: two lines that differ in
    the ORF id only parse to the same result (the id is computed again from
    the transcript id and the intervals). *)
Theorem from_string_ignores_id (f0 f0' rest : String.string) :
  str_in (String.String tab String.EmptyString) f0 = false ->
  str_in (String.String tab String.EmptyString) f0' = false ->
  from_string py_int (String.append f0 (String.String tab rest))
  = from_string py_int (String.append f0' (String.String tab rest)).
Proof.
  intros H H'. unfold from_string. rewrite !split_first_column by assumption.
  assert (E : forall f, String.eqb (String.append f (String.String tab rest)) "" = false).
  { intros [|c f]; reflexivity. }
  rewrite !E. reflexivity.
Qed.

(** X25: [parse_ribotricer_index] tests the first data line for the word
    annotated but never parses it: the result is the same for any two first
    lines that agree on that test, whatever else they hold. *)
Theorem parse_ribotricer_index_skips_first
  (header header' line line' : String.string) (rest : list String.string) :
  str_in "annotated" line = str_in "annotated" line' ->
  parse_ribotricer_index py_int (header :: line :: rest)
  = parse_ribotricer_index py_int (header' :: line' :: rest).
Proof.
  intros H. unfold parse_ribotricer_index.
  destruct rest as [|next rest]; simpl; rewrite H; reflexivity.
Qed.

Lemma parse_line_empty acc : parse_line py_int "" acc = inr acc.
Proof. reflexivity. Qed.

Lemma parse_loop_annotated line lines orfs acc :
  str_in "annotated" line = true ->
  Forall2 (annotated_line py_int) lines orfs ->
  exists refseq, parse_loop py_int line lines acc = inr (fst acc ++ orfs, refseq).
Proof.
  intros Hl H. revert line Hl acc.
  induction H as [|next orf lines orfs (Hn & Hf & Hc & Hs) _ IH]; intros line Hl acc.
  - simpl. rewrite Hl, parse_line_empty, app_nil_r. destruct acc. eexists. reflexivity.
  - simpl. rewrite Hl. unfold parse_line. rewrite Hf, Hc. simpl.
    destruct (from_string_orf_facts _ _ Hf) as (Hne & _).
    destruct (ORF.intervals orf) as [|first rest] eqn:E; [contradiction|].
    destruct (STRAND_TO_NUM (ORF.strand orf)) as [num|]; [|contradiction].
    destruct (IH next Hn (fst acc ++ [orf],
                refseq_insert (snd acc) (ORF.chrom orf)
                  (start first, end_ (last (first :: rest) first), num)))
      as (refseq & Hr).
    exists refseq. rewrite Hr. simpl. rewrite <- app_assoc. reflexivity.
Qed.

(** X26: On an index whose data lines are all annotated ORFs, the list
    returned holds the ORFs of the second line onwards: the ORF of the first
    data line is missing. *)
Theorem parse_ribotricer_index_drops_first
  (header line : String.string) (lines : list String.string) (orfs : list ORF.t) :
  str_in "annotated" line = true ->
  Forall2 (annotated_line py_int) lines orfs ->
  exists refseq,
    parse_ribotricer_index py_int (header :: line :: lines) = inr (orfs, refseq).
Proof.
  intros Hl H. unfold parse_ribotricer_index.
  destruct (parse_loop_annotated line lines orfs ([], []) Hl H) as (refseq & Hr).
  exists refseq. exact Hr.
Qed.

Lemma parse_group_outcome c s group :
  (well_formed_group py_int group ->
   exists iv, parse_group py_int c s group = inr iv)
  /\ (~ well_formed_group py_int group ->
      parse_group py_int c s group = inl Exc.ValueError).
Proof.
  unfold parse_group, well_formed_group.
  destruct (split "-"%char group) as [|a [|b [|x l]]].
  - split; [intros (a & b & [=] & _) | reflexivity].
  - split; [intros (a' & b & [=] & _) | reflexivity].
  - destruct (py_int a) as [za|] eqn:Ea; [destruct (py_int b) as [zb|] eqn:Eb|].
    + split; [eauto|]. intros H. exfalso. apply H. exists a, b.
      rewrite Ea, Eb. repeat split; discriminate.
    + split; [|reflexivity]. intros (a' & b' & [= <- <-] & _ & Hb).
      rewrite Eb in Hb. contradiction.
    + split; [|reflexivity]. intros (a' & b' & [= <- <-] & Ha & _).
      rewrite Ea in Ha. contradiction.
  - split; [intros (a' & b' & [=] & _) | reflexivity].
Qed.

Lemma well_formed_group_dec group :
  well_formed_group py_int group \/ ~ well_formed_group py_int group.
Proof.
  unfold well_formed_group.
  destruct (split "-"%char group) as [|a [|b [|x l]]];
    try (right; intros (a' & b' & [=] & _); fail).
  destruct (py_int a) eqn:Ea; [destruct (py_int b) eqn:Eb|].
  - left. exists a, b. rewrite Ea, Eb. repeat split; discriminate.
  - right. intros (a' & b' & [= <- <-] & _ & Hb). rewrite Eb in Hb. contradiction.
  - right. intros (a' & b' & [= <- <-] & Ha & _). rewrite Ea in Ha. contradiction.
Qed.

(** The loop of lines 85-89: it stops with [ValueError] at the first group
    that is not well formed. *)
Lemma mapM_parse_group c s groups :
  (Forall (well_formed_group py_int) groups ->
   exists ivs, mapM (parse_group py_int c s) groups = inr ivs)
  /\ (Exists (fun g => ~ well_formed_group py_int g) groups ->
      mapM (parse_group py_int c s) groups = inl Exc.ValueError).
Proof.
  induction groups as [|g groups [IHok IHbad]]; simpl.
  - split; [eauto | intros H; inversion H].
  - destruct (parse_group_outcome c s g) as [Hok Hbad].
    destruct (well_formed_group_dec g) as [Hg | Hg].
    + destruct (Hok Hg) as (iv & ->). split.
      * intros H. inversion H as [|? ? _ Hrest]; subst.
        destruct (IHok Hrest) as (ivs & ->). eauto.
      * intros H. inversion H as [? ? Hng | ? ? Hrest]; subst; [contradiction|].
        rewrite (IHbad Hrest). reflexivity.
    + rewrite (Hbad Hg). split; [|reflexivity].
      intros H. inversion H; subst. contradiction.
Qed.

Lemma Forall_or_Exists_not (groups : list String.string) :
  Forall (well_formed_group py_int) groups
  \/ Exists (fun g => ~ well_formed_group py_int g) groups.
Proof.
  induction groups as [|g groups [IH | IH]].
  - left. constructor.
  - destruct (well_formed_group_dec g) as [Hg | Hg].
    + left. constructor; assumption.
    + right. constructor. exact Hg.
  - right. apply Exists_cons_tl. exact IH.
Qed.

Lemma Forall_not_Exists_not (groups : list String.string) :
  Forall (well_formed_group py_int) groups ->
  Exists (fun g => ~ well_formed_group py_int g) groups -> False.
Proof.
  intros Hf Hx. induction Hx as [g gs Hg | g gs _ IH];
    inversion Hf; subst; auto.
Qed.

Lemma ORF_init_nonempty category tid ttype gid gname gtype c s ivs seq leader trailer :
  ivs <> [] ->
  exists orf,
    ORF.init category tid ttype gid gname gtype c s ivs seq leader trailer = inr orf.
Proof.
  intros Hne. unfold ORF.init.
  destruct (sorted_by_start ivs) as [|first rest] eqn:Es; [|eauto].
  apply sorted_by_start_nil in Es. contradiction.
Qed.

(** What [from_string] does with a line, by its columns. *)
Lemma from_string_cases (line : String.string) :
  (line = ""%string /\ from_string py_int line = inr None)
  \/ (line <> ""%string /\ length (split tab line) <> 10%nat
      /\ from_string py_int line = inl Exc.SystemExit)
  \/ (line <> ""%string /\ length (split tab line) = 10%nat
      /\ Exists (fun g => ~ well_formed_group py_int g)
           (split ","%char (nth 9 (split tab line) ""%string))
      /\ from_string py_int line = inl Exc.ValueError)
  \/ (line <> ""%string /\ length (split tab line) = 10%nat
      /\ Forall (well_formed_group py_int)
           (split ","%char (nth 9 (split tab line) ""%string))
      /\ exists orf, from_string py_int line = inr (Some orf)).
Proof.
  unfold from_string. destruct (String.eqb_spec line "") as [-> | Hne]; [left; auto|].
  right.
  destruct (split tab line) as [|f0 [|f1 [|f2 [|f3 [|f4 [|f5 [|f6 [|f7 [|f8 [|f9 [|x l]]]]]]]]]]];
    try (left; split; [exact Hne|]; split; [simpl; lia | reflexivity]).
  right. cbn [nth].
  destruct (mapM_parse_group f7 f8 (split ","%char f9)) as [Hok Hbad].
  destruct (Forall_or_Exists_not (split ","%char f9)) as [H | H].
  - right. split; [exact Hne|]. split; [reflexivity|]. split; [exact H|].
    destruct (Hok H) as (ivs & E). rewrite E.
    assert (Hivs : ivs <> []).
    { intros ->. apply mapM_length in E. simpl in E.
      destruct (split ","%char f9) eqn:Ec; [|discriminate].
      apply (split_nonempty _ _ Ec). }
    destruct (ORF_init_nonempty f1 f2 f3 f4 f5 f6 f7 f8 ivs ""%string ""%string
                ""%string Hivs) as (orf & ->).
    eauto.
  - left. split; [exact Hne|]. split; [reflexivity|]. split; [exact H|].
    rewrite (Hbad H). reflexivity.
Qed.

(** X24: [from_string] returns None on the empty line and on no other; it
    exits exactly on the non-empty lines that do not have 10 tab-separated
    columns; it raises ValueError exactly on the lines of 10 columns whose
    coordinate column has a group that is not two integers around one [-];
    it fails in no other way, and on every other line it returns an ORF. *)
Theorem from_string_failures (line : String.string) :
  (from_string py_int line = inr None <-> line = ""%string)
  /\ (from_string py_int line = inl Exc.SystemExit <->
      line <> ""%string /\ length (split tab line) <> 10%nat)
  /\ (from_string py_int line = inl Exc.ValueError <->
      line <> ""%string /\ length (split tab line) = 10%nat
      /\ Exists (fun g => ~ well_formed_group py_int g)
           (split ","%char (nth 9 (split tab line) ""%string)))
  /\ (forall e, from_string py_int line = inl e ->
                e = Exc.SystemExit \/ e = Exc.ValueError)
  /\ ((exists orf, from_string py_int line = inr (Some orf)) <->
      line <> ""%string /\ length (split tab line) = 10%nat
      /\ Forall (well_formed_group py_int)
           (split ","%char (nth 9 (split tab line) ""%string))).
Proof.
  destruct (from_string_cases line)
    as [(Hl & E) | [(Hl & Hn & E) | [(Hl & Hn & Hx & E) | (Hl & Hn & Hf & orf & E)]]];
    rewrite E.
  - split; [tauto|]. split; [split; [discriminate | tauto]|].
    split; [split; [discriminate | tauto]|].
    split; [discriminate|]. split; [intros (orf & [=]) | tauto].
  - split; [split; [discriminate | tauto]|]. split; [tauto|].
    split; [split; [discriminate | tauto]|].
    split; [intros e [= <-]; auto|]. split; [intros (orf & [=]) | tauto].
  - split; [split; [discriminate | tauto]|].
    split; [split; [discriminate | tauto]|]. split; [tauto|].
    split; [intros e [= <-]; auto|]. split; [intros (orf & [=])|].
    intros (_ & _ & Hf). exfalso. exact (Forall_not_Exists_not _ Hf Hx).
  - split; [split; [discriminate | tauto]|].
    split; [split; [discriminate | tauto]|].
    split; [split; [discriminate|]|].
    + intros (_ & _ & Hx). exfalso. exact (Forall_not_Exists_not _ Hf Hx).
    + split; [discriminate|]. split; [tauto | eauto].
Qed.

End FromStringProperties.

Lemma parse_ribotricer_index_drops_first_witness :
  exists refseq,
    parse_ribotricer_index int_of_digits
      ["header"%string; index_line "a" "1-9"; index_line "b" "20-31,5-7"]
    = inr ([index_orf [mkInterval "chr1" 5 7 "+"; mkInterval "chr1" 20 31 "+"]
              "T1_5_31_15"],
           refseq).
Proof.
  apply (parse_ribotricer_index_drops_first int_of_digits "header"
           (index_line "a" "1-9") [index_line "b" "20-31,5-7"]).
  - reflexivity.
  - constructor; [|constructor].
    split; [reflexivity|]. split; [reflexivity|]. split; [reflexivity|]. discriminate.
Defined.

(** ** Thresholds and densities *)

(** X8: Lowering thresholds never loses a translating ORF: if the five
    thresholds of one setting are each at most those of another, whatever is
    translating under the larger ones is translating under the smaller ones. *)
Theorem gate_monotone (th th' : thresholds) (coh : R) (valid_codons : Z)
  (codon_coverage : list Z) (ratio density : R) :
  thresholds_le th' th ->
  gate th coh valid_codons codon_coverage ratio density = translating ->
  gate th' coh valid_codons codon_coverage ratio density = translating.
Proof.
  intros (H1 & H2 & H3 & H4 & H5). rewrite !gate_translating.
  intros (G1 & G2 & G3 & G4 & G5).
  split; [lra|]. split; [lra|]. split; [|split; lra].
  eapply Forall_impl; [|exact G3]. simpl. intros c Hc. lra.
Qed.

Lemma gate_monotone_witness :
  gate (mkThresholds 0 0 0 0 0) 1 9 [3; 2; 1]%Z 3 2 = translating.
Proof.
  apply (gate_monotone default_thresholds (mkThresholds 0 0 0 0 0)).
  - unfold thresholds_le, default_thresholds, CUTOFF, MINIMUM_VALID_CODONS. simpl.
    repeat split; lra.
  - apply gate_translating.
    unfold default_thresholds, CUTOFF, MINIMUM_VALID_CODONS. simpl.
    repeat split; try lra. repeat constructor; lra.
Defined.

(** X10: For k >= 1 [phase_vector_pdf] returns an array as long as the array
    of points; for k <= 0 no branch binds [p] and the function raises. *)
Theorem phase_vector_pdf_length
  (quad : (float -> float) -> float -> float -> float)
  (ncx2_pdf : float -> float -> float -> float)
  (jv : float -> float -> float) (np_exp : float -> float)
  (x : list float) (k : Z) (scipy_form : bool) :
  ((1 <= k)%Z ->
   exists p, PhaseVector.phase_vector_pdf quad ncx2_pdf jv np_exp x k scipy_form = ret p
             /\ length p = length x)
  /\ ((k <= 0)%Z ->
      PhaseVector.phase_vector_pdf quad ncx2_pdf jv np_exp x k scipy_form
      = raise UnboundLocalError).
Proof.
  unfold PhaseVector.phase_vector_pdf. split; intros Hk.
  - destruct (Z.eqb_spec k 1); [eexists; split; [reflexivity|]; apply repeat_length|].
    destruct (Z.eqb_spec k 2).
    { eexists; split; [reflexivity|].
      rewrite length_map, length_combine, length_map. apply Nat.min_id. }
    destruct (Z.eqb_spec k 3).
    { eexists; split; [reflexivity|].
      rewrite length_map, length_combine, length_map. apply Nat.min_id. }
    destruct (Z.leb_spec 4 k); [|lia].
    destruct scipy_form; simpl; eexists; (split; [reflexivity|]).
    + rewrite !length_map. reflexivity.
    + rewrite length_map, length_combine, length_map. apply Nat.min_id.
  - destruct (Z.eqb_spec k 1); [lia|]. destruct (Z.eqb_spec k 2); [lia|].
    destruct (Z.eqb_spec k 3); [lia|]. destruct (Z.leb_spec 4 k); [lia|]. reflexivity.
Qed.

(** ** [merge_intervals] and the labels *)

Lemma insert_by_start_coords x x' l l' :
  same_coords x x' -> Forall2 same_coords l l' ->
  Forall2 same_coords (insert_by_start x l) (insert_by_start x' l').
Proof.
  intros [Hs He] H. induction H as [|y y' l l' [Hys Hye] H IH]; simpl.
  - repeat constructor; assumption.
  - rewrite Hs, Hys. destruct (start x' <=? start y')%Z.
    + constructor; [split; assumption|]. constructor; [split; assumption | exact H].
    + constructor; [split; assumption | exact IH].
Qed.

Lemma sorted_by_start_coords l l' :
  Forall2 same_coords l l' ->
  Forall2 same_coords (sorted_by_start l) (sorted_by_start l').
Proof.
  induction 1 as [|x x' l l' Hx H IH]; simpl; [constructor|].
  apply insert_by_start_coords; assumption.
Qed.

Lemma merge_run_coords cur cur' rest rest' :
  same_coords cur cur' -> Forall2 same_coords rest rest' ->
  Forall2 same_coords (merge_run cur rest) (merge_run cur' rest').
Proof.
  intros Hc H. revert cur cur' Hc.
  induction H as [|y y' l l' [Hys Hye] H IH]; intros cur cur' [Hs He]; simpl.
  - repeat constructor; assumption.
  - rewrite Hys, He. destruct (start y' <=? end_ cur')%Z.
    + apply IH. unfold same_coords, set_end. simpl. rewrite Hye. auto.
    + constructor; [split; assumption|]. apply IH. split; assumption.
Qed.

(** X14: Chromosome and strand play no part in the merge: two lists of
    intervals with the same coordinates merge to intervals with the same
    coordinates, so overlapping intervals of different chromosomes or
    strands are merged. *)
Theorem merge_intervals_ignores_labels (l l' : list Interval) :
  Forall2 same_coords l l' ->
  Forall2 same_coords (merge_intervals l) (merge_intervals l').
Proof.
  intros H. unfold merge_intervals.
  destruct (sorted_by_start_coords l l' H) as [|x x' r r' Hx Hr]; [constructor|].
  apply merge_run_coords; assumption.
Qed.

Lemma merge_intervals_ignores_labels_witness :
  Forall2 same_coords
    (merge_intervals [mkInterval "chr1" 1 10 "+"; mkInterval "chr1" 5 20 "+"])
    (merge_intervals [mkInterval "chr1" 1 10 "+"; mkInterval "chr2" 5 20 "-"]).
Proof.
  apply (merge_intervals_ignores_labels
           [mkInterval "chr1" 1 10 "+"; mkInterval "chr1" 5 20 "+"]
           [mkInterval "chr1" 1 10 "+"; mkInterval "chr2" 5 20 "-"]).
  repeat constructor.
Defined.

(** ** Worked examples *)

(** X17: [orf_coverage] raises IndexError on an ORF without intervals, and
    otherwise returns one entry per position of the intervals and of the two
    flanks. *)
Theorem orf_coverage_result (orf : ORF.t) (alignments : by_strand)
  (offset_5p offset_3p : Z) :
  (ORF.intervals orf = [] ->
   orf_coverage orf alignments offset_5p offset_3p = inl Exc.IndexError)
  /\ (ORF.intervals orf <> [] ->
      exists cov,
        orf_coverage orf alignments offset_5p offset_3p = inr cov
        /\ length cov
           = (Z.to_nat offset_5p
              + fold_right (fun iv acc => (span iv + acc)%nat) 0%nat
                  (ORF.intervals orf)
              + Z.to_nat offset_3p)%nat).
Proof.
  split.
  - intros H. unfold orf_coverage. rewrite H.
    destruct (String.eqb (ORF.strand orf) "-"); reflexivity.
  - intros Hne.
    destruct (orf_coverage orf alignments offset_5p offset_3p) as [e | cov] eqn:E.
    + exfalso. unfold orf_coverage in E.
      destruct (String.eqb (ORF.strand orf) "-"); cbv beta iota zeta in E;
        destruct (ORF.intervals orf); try contradiction; discriminate.
    + exists cov. split; [reflexivity|]. apply (orf_coverage_length _ _ _ _ _ E).
Qed.

Lemma orf_coverage_result_witness :
  exists cov,
    orf_coverage (orf_two_exons "novel" "-") [] 3 0 = inr cov
    /\ length cov = (Z.to_nat 3 + (span (mkInterval "chr1" 1 9 "-")
                                   + (span (mkInterval "chr1" 20 30 "-") + 0))
                     + Z.to_nat 0)%nat.
Proof.
  apply (proj2 (orf_coverage_result (orf_two_exons "novel" "-") [] 3 0)).
  discriminate.
Defined.

Lemma orf_coverage_category_blind_witness :
  orf_coverage (orf_two_exons "annotated" "+") [("+"%string, [(("chr1"%string, 5%Z), 4%Z)])] 0 0
  = orf_coverage (orf_two_exons "novel" "+") [("+"%string, [(("chr1"%string, 5%Z), 4%Z)])] 0 0.
Proof.
  apply (orf_coverage_category_blind (orf_two_exons "annotated" "+")
           (orf_two_exons "novel" "+")); reflexivity.
Defined.

Lemma alignments_28_29_well_formed : well_formed alignments_28_29.
Proof.
  intros len per_strand [[= <- <-] | [[= <- <-] | []]]; split.
  - repeat constructor; simpl; intuition discriminate.
  - intros s c [[= <- <-] | [[= <- <-] | []]]; repeat constructor; simpl; intuition.
  - repeat constructor; simpl; intuition.
  - intros s c [[= <- <-] | []]; repeat constructor; simpl; intuition.
Qed.

Lemma merge_read_lengths_count_witness :
  count_try
    [("+"%string, [(("chr1"%string, 22%Z), 5%Z)]);
     ("-"%string, [(("chr1"%string, 38%Z), 1%Z)])] "+" "chr1" 22
  = shifted_total alignments_28_29 [(28, 12); (29, 13)]%Z "+" "chr1" 22.
Proof.
  apply (merge_read_lengths_count alignments_28_29 [(28, 12); (29, 13)]%Z).
  - exact alignments_28_29_well_formed.
  - reflexivity.
Defined.

Lemma from_string_orf_witness :
  ORF.intervals (index_orf [mkInterval "chr1" 5 7 "+"; mkInterval "chr1" 20 31 "+"]
                   "T1_5_31_15") <> []
  /\ StronglySorted le_start
       (ORF.intervals (index_orf [mkInterval "chr1" 5 7 "+"; mkInterval "chr1" 20 31 "+"]
                         "T1_5_31_15"))
  /\ Forall (fun iv => chrom iv = "chr1"%string /\ strand iv = "+"%string)
       [mkInterval "chr1" 5 7 "+"; mkInterval "chr1" 20 31 "+"]
  /\ ORF.start_codon (index_orf [mkInterval "chr1" 5 7 "+"; mkInterval "chr1" 20 31 "+"]
                        "T1_5_31_15") = None.
Proof.
  apply (from_string_orf int_of_digits (index_line "b" "20-31,5-7")). reflexivity.
Defined.

Lemma from_string_ignores_id_witness :
  from_string int_of_digits (index_line "a" "1-9")
  = from_string int_of_digits (index_line "another_id" "1-9").
Proof.
  apply (from_string_ignores_id int_of_digits "a" "another_id"); reflexivity.
Defined.

Lemma from_string_failures_witness :
  from_string int_of_digits "one column" = inl Exc.SystemExit
  /\ from_string int_of_digits (index_line "a" "1-9,7") = inl Exc.ValueError.
Proof.
  split.
  - apply (proj1 (proj2 (from_string_failures int_of_digits "one column"))).
    split; [discriminate | simpl; lia].
  - apply (proj1 (proj2 (proj2 (from_string_failures int_of_digits
                                  (index_line "a" "1-9,7"))))).
    split; [discriminate|]. split; [reflexivity|].
    apply Exists_cons_tl, Exists_cons_hd. intros (a & b & [=] & _).
Defined.

Lemma parse_ribotricer_index_skips_first_witness :
  parse_ribotricer_index int_of_digits
    ["header"%string; index_line "a" "1-9"; index_line "b" "20-31,5-7"]
  = parse_ribotricer_index int_of_digits
      ["other header"%string; "annotated but not an index line"%string;
       index_line "b" "20-31,5-7"].
Proof.
  apply (parse_ribotricer_index_skips_first int_of_digits). reflexivity.
Defined.

Lemma score_orf_short_witness :
  score_orf coherence_score_valid collapse_coverage_to_codon default_thresholds
    [4; 1]%Z = raise ZeroDivisionError.
Proof.
  apply (score_orf_short coherence_score_valid collapse_coverage_to_codon).
  simpl. lia.
Defined.

Lemma phase_vector_pdf_length_witness :
  exists p,
    PhaseVector.phase_vector_pdf PhaseVector.midpoint_rule (fun _ _ _ => 0%float)
      (fun _ _ => 0%float) (fun _ => 0%float) [1; 2; 5]%float 2 true = ret p
    /\ length p = length [1; 2; 5]%float.
Proof.
  apply (proj1 (phase_vector_pdf_length PhaseVector.midpoint_rule
                  (fun _ _ _ => 0%float) (fun _ _ => 0%float) (fun _ => 0%float)
                  [1; 2; 5]%float 2 true)).
  lia.
Defined.
